(** * ZLint: the lint registry, filter resolution and result sets

    A shallow embedding of package [lint] of zlint: the result collection
    ([lint/resultset.go]: [ResultSet], [AddResult], [Above]) and the registry
    ([linterImpl]: [register], [byName], [Names], [lintNamesToMap],
    [sourceListToMap], [Filter], [LintByName]), followed by the properties
    of the specification that concern them.

    Conventions of the embedding.
    - A Go pointer that may be nil is an [option]; a Go map is a [gmap];
      a nil map is [None] where the code tests for it.
    - A method with a pointer receiver that mutates it takes the receiver's
      state and returns the new state.
    - A run-time panic (nil dereference, write to a nil map) is [None] in
      the result of the functions that can panic, and [FilterPanic] for
      [Filter].
    - The wall clock is an argument: every [time.Now().Unix()] of the source
      is a timestamp handed to the function. *)

From stdpp Require Import gmap strings list fin_maps sorting.
From Stdlib Require Import ZArith.

Local Open Scope Z_scope.

(** ** Result model *)

(** Modelled from the spec: the declaration of [LintStatus] is not among the
    sources. The statuses are the closed set of section 3 of the
    specification, listed there in increasing severity. *)
Inductive LintStatus : Type :=
  | Reserved
  | Pass
  | Notice
  | Warn
  | Error
  | Fatal
  | NA.

#[global] Instance LintStatus_eq_dec : EqDecision LintStatus.
Proof. solve_decision. Defined.

(** The integer behind a status: the position in the severity order. The
    source compares statuses with [>] on this integer. *)
Definition status_value (s : LintStatus) : Z :=
  match s with
  | Reserved => 0
  | Pass => 1
  | Notice => 2
  | Warn => 3
  | Error => 4
  | Fatal => 5
  | NA => 6
  end.

(** Modelled from the spec: the declaration of [LintResult] is not among the
    sources; a verdict is a status with an optional detail string. *)
Record LintResult : Type := mkLintResult {
  Status : LintStatus;
  Details : string
}.

Definition resultSetVersion : Z := 4.

(** [ResultSet] of [lint/resultset.go]. [Results] holds pointers, so a stored
    value is an [option]; the map itself may be nil. *)
Record ResultSet : Type := mkResultSet {
  Version : Z;
  NoticesPresent : bool;
  WarningsPresent : bool;
  ErrorsPresent : bool;
  FatalsPresent : bool;
  Results : option (gmap string (option LintResult));
  LintStartTimestamp : Z;
  LintEndTimestamp : Z
}.

Definition set_Results (rs : ResultSet) (m : option (gmap string (option LintResult))) : ResultSet :=
  mkResultSet (Version rs) (NoticesPresent rs) (WarningsPresent rs)
    (ErrorsPresent rs) (FatalsPresent rs) m
    (LintStartTimestamp rs) (LintEndTimestamp rs).

Definition set_NoticesPresent (rs : ResultSet) (b : bool) : ResultSet :=
  mkResultSet (Version rs) b (WarningsPresent rs)
    (ErrorsPresent rs) (FatalsPresent rs) (Results rs)
    (LintStartTimestamp rs) (LintEndTimestamp rs).

Definition set_WarningsPresent (rs : ResultSet) (b : bool) : ResultSet :=
  mkResultSet (Version rs) (NoticesPresent rs) b
    (ErrorsPresent rs) (FatalsPresent rs) (Results rs)
    (LintStartTimestamp rs) (LintEndTimestamp rs).

Definition set_ErrorsPresent (rs : ResultSet) (b : bool) : ResultSet :=
  mkResultSet (Version rs) (NoticesPresent rs) (WarningsPresent rs)
    b (FatalsPresent rs) (Results rs)
    (LintStartTimestamp rs) (LintEndTimestamp rs).

Definition set_FatalsPresent (rs : ResultSet) (b : bool) : ResultSet :=
  mkResultSet (Version rs) (NoticesPresent rs) (WarningsPresent rs)
    (ErrorsPresent rs) b (Results rs)
    (LintStartTimestamp rs) (LintEndTimestamp rs).

Definition set_LintEndTimestamp (rs : ResultSet) (t : Z) : ResultSet :=
  mkResultSet (Version rs) (NoticesPresent rs) (WarningsPresent rs)
    (ErrorsPresent rs) (FatalsPresent rs) (Results rs)
    (LintStartTimestamp rs) t.

(** [newResultSet]: the version, an empty (non-nil) map and the start
    timestamp [now]; every other field has its zero value. *)
Definition newResultSet (now : Z) : ResultSet :=
  mkResultSet resultSetVersion false false false false (Some ∅) now 0.

(** The entries of a result set; ranging over a nil map visits nothing. *)
Definition entries (rs : ResultSet) : gmap string (option LintResult) :=
  default ∅ (Results rs).

(** [ResultSet.AddResult] of [lint/resultset.go]: a nil map is replaced by a
    new one, the result is stored (nil or not), and a non-nil result raises
    the flag of its status. *)
Definition AddResult (rs : ResultSet) (lintName : string)
    (result : option LintResult) : ResultSet :=
  let rs := match Results rs with
            | None => set_Results rs (Some ∅)
            | Some _ => rs
            end in
  let rs := set_Results rs (Some (<[lintName := result]> (entries rs))) in
  match result with
  | Some r =>
      match Status r with
      | Notice => set_NoticesPresent rs true
      | Warn => set_WarningsPresent rs true
      | Error => set_ErrorsPresent rs true
      | Fatal => set_FatalsPresent rs true
      | _ => rs
      end
  | None => rs
  end.

(** The older [ResultSet.AddResult] (result set version 3): no nil checks.
    Writing to a nil map panics, and so does reading the status of a nil
    result. *)
Definition AddResult_v3 (rs : ResultSet) (lintName : string)
    (result : option LintResult) : option ResultSet :=
  match Results rs with
  | None => None
  | Some m =>
      let rs := set_Results rs (Some (<[lintName := result]> m)) in
      match result with
      | None => None
      | Some r =>
          Some match Status r with
               | Notice => set_NoticesPresent rs true
               | Warn => set_WarningsPresent rs true
               | Error => set_ErrorsPresent rs true
               | Fatal => set_FatalsPresent rs true
               | _ => rs
               end
      end
  end.

(** One iteration of the loop of [Above]: [res.Status] dereferences the
    stored pointer. *)
Definition Above_step (status : LintStatus) (name : string)
    (res : option LintResult)
    (acc : option (gmap string (option LintResult)))
    : option (gmap string (option LintResult)) :=
  match acc with
  | None => None
  | Some filteredResults =>
      match res with
      | None => None
      | Some r =>
          if status_value status <? status_value (Status r)
          then Some (<[name := res]> filteredResults)
          else Some filteredResults
      end
  end.

(** [ResultSet.Above]: a loop over the entries of the map, in the order the
    map yields them. [None] is the panic of a nil dereference. *)
Definition Above (rs : ResultSet) (status : LintStatus)
    : option (gmap string (option LintResult)) :=
  map_fold (Above_step status) (Some ∅) (entries rs).

(** A sequence of insertions, oldest first. *)
Definition AddResults (rs : ResultSet)
    (inserts : list (string * option LintResult)) : ResultSet :=
  foldl (λ rs i, AddResult rs i.1 i.2) rs inserts.

(** "This entry's status equals the severity level [s]"; a nil entry has no
    status. *)
Definition has_status (s : LintStatus) (res : option LintResult) : bool :=
  match res with
  | Some r => bool_decide (Status r = s)
  | None => false
  end.

(** The logical OR, over all entries of the result set, of [has_status s]. *)
Definition any_status (s : LintStatus) (rs : ResultSet) : bool :=
  existsb (λ e, has_status s e.2) (map_to_list (entries rs)).

(** The invariant of section 3 of the specification. *)
Definition flags_consistent (rs : ResultSet) : Prop :=
  NoticesPresent rs = any_status Notice rs ∧
  WarningsPresent rs = any_status Warn rs ∧
  ErrorsPresent rs = any_status Error rs ∧
  FatalsPresent rs = any_status Fatal rs.

(** What one insertion does to the flags: each is its former value or-ed
    with "the inserted result has that severity". *)
Definition flags_raised (rs rs' : ResultSet) (result : option LintResult) : Prop :=
  NoticesPresent rs' = NoticesPresent rs || has_status Notice result ∧
  WarningsPresent rs' = WarningsPresent rs || has_status Warn result ∧
  ErrorsPresent rs' = ErrorsPresent rs || has_status Error result ∧
  FatalsPresent rs' = FatalsPresent rs || has_status Fatal result.

(** Every stored result is a non-nil pointer. *)
Definition results_non_nil (rs : ResultSet) : Prop :=
  map_Forall (λ _ res, is_Some res) (entries rs).

(** "Status strictly greater than the threshold", on a stored entry. *)
Definition status_above (status : LintStatus) (e : string * option LintResult) : Prop :=
  ∃ r, e.2 = Some r ∧ status_value status < status_value (Status r).

#[global] Instance status_above_dec status e : Decision (status_above status e).
Proof.
  destruct e as [name [r|]]; unfold status_above; simpl.
  - destruct (decide (status_value status < status_value (Status r))).
    + left. eauto.
    + right. intros (r' & [= <-] & ?). done.
  - right. intros (r' & [=] & ?).
Defined.

(** ** Registry *)

(** Modelled from the spec: the declaration of [LintSource] is not among the
    sources; a provenance tag is represented by its label. *)
Abbreviation LintSource := string (only parsing).
Abbreviation SourceList := (list string) (only parsing).

(** The part of [LintInterface] that registration uses: the outcome of
    [Initialize()], nil or an error (its message). *)
Record LintInterface : Type := mkLintInterface {
  Initialize : option string
}.

(** Modelled from the spec: the declaration of the [Lint] struct is not among
    the sources; its fields are those of the rule descriptor of section 3 and
    of the literal in [lint_ev_country_name_missing.go]. The field [Lint] of
    the struct, an interface value that may be nil, is [Lint_Lint]. *)
Record Lint : Type := mkLint {
  Name : string;
  Description : string;
  Citation : string;
  Source : LintSource;
  EffectiveDate : Z;
  Lint_Lint : option LintInterface
}.

(** [*regexp.Regexp], through the one method the registry calls. *)
Record Regexp : Type := mkRegexp {
  MatchString : string → bool
}.

Record FilterOptions : Type := mkFilterOptions {
  NameFilter : option Regexp;
  IncludeNames : list string;
  ExcludeNames : list string;
  IncludeSources : SourceList;
  ExcludeSources : SourceList
}.

(** [FilterOptions.Empty]. *)
Definition Empty (opts : FilterOptions) : bool :=
  match NameFilter opts with None => true | Some _ => false end &&
  bool_decide (length (IncludeNames opts) = 0%nat) &&
  bool_decide (length (ExcludeNames opts) = 0%nat) &&
  bool_decide (length (IncludeSources opts) = 0%nat) &&
  bool_decide (length (ExcludeSources opts) = 0%nat).

(** The state of a [linterImpl]; the lock has no state of its own here.
    [lintsByName] never holds a nil pointer: [register] is the only writer
    and stores the pointer it has just tested. *)
Record linterImpl : Type := mkLinterImpl {
  lintsByName : gmap string Lint;
  lintNames : list string;
  lintsBySource : gmap string (list Lint)
}.

Inductive RegisterError : Type :=
  | errNilLint
  | errNilLintPtr
  | errEmptyName
  | errDuplicateName (lintName : string)
  | errBadInit (lintName : string) (err : string).

Inductive FilterError : Type :=
  | errUnknownLintName (n : string)
  | errNameFilterConflict
  | errRegister (err : RegisterError).

(** What [Filter] hands back: the receiver itself ([return l, nil]), a linter
    made by [newLinter] ([return filteredLinter, nil]), an error, or a nil
    dereference. *)
Inductive FilterResult : Type :=
  | FilterSame
  | FilterNew (filteredLinter : linterImpl)
  | FilterErr (err : FilterError)
  | FilterPanic.

(** [newLinter]. *)
Definition newLinter : linterImpl :=
  mkLinterImpl ∅ [] ∅.

(** [linterImpl.byName]: nil when the name is not a key. *)
Definition byName (l : linterImpl) (name : string) : option Lint :=
  lintsByName l !! name.

(** [linterImpl.Names]. *)
Definition Names (l : linterImpl) : list string :=
  lintNames l.

(** [sort.Strings]: the byte-wise lexicographic order of Go strings. *)
Definition sort_Strings (names : list string) : list string :=
  merge_sort String.le names.

(** [linterImpl.register]: the new state of the receiver and the error
    returned (nil is [None]). *)
Definition register (linter : linterImpl) (l : option Lint) (initialize : bool)
    : linterImpl * option RegisterError :=
  match l with
  | None => (linter, Some errNilLint)
  | Some l =>
      match Lint_Lint l with
      | None => (linter, Some errNilLintPtr)
      | Some impl =>
          if decide (Name l = EmptyString) then (linter, Some errEmptyName)
          else
            match byName linter (Name l) with
            | Some existing => (linter, Some (errDuplicateName (Name l)))
            | None =>
                match (if initialize then Initialize impl else None) with
                | Some err => (linter, Some (errBadInit (Name l) err))
                | None =>
                    (mkLinterImpl
                       (<[Name l := l]> (lintsByName linter))
                       (sort_Strings (lintNames linter ++ [Name l]))
                       (<[Source l :=
                            default [] (lintsBySource linter !! Source l) ++ [l]]>
                          (lintsBySource linter)),
                     None)
                end
            end
      end
  end.

(** Registering a list of lints in turn, stopping at the first error. *)
Fixpoint register_all (linter : linterImpl) (ls : list Lint) (initialize : bool)
    : linterImpl * option RegisterError :=
  match ls with
  | [] => (linter, None)
  | l :: ls =>
      match register linter (Some l) initialize with
      | (linter', None) => register_all linter' ls initialize
      | (linter', Some err) => (linter', Some err)
      end
  end.

(** [m[k]] on a [map[K]bool]: false when the key is absent. *)
Definition lookup_bool `{Countable K} (m : gmap K bool) (k : K) : bool :=
  default false (m !! k).

(** [sourceListToMap]: nil for an empty list. *)
Definition sourceListToMap (sources : SourceList) : option (gmap string bool) :=
  if decide (length sources = 0%nat) then None
  else Some (foldl (λ sourceMap s, <[s := true]> sourceMap) ∅ sources).

Section Filtering.

(** [strings.TrimSpace] of the Go standard library. *)
Variable TrimSpace : string → string.

(** The loop of [lintNamesToMap]. *)
Fixpoint lintNamesToMap_loop (l : linterImpl) (names : list string)
    (namesMap : gmap string bool) : FilterError + gmap string bool :=
  match names with
  | [] => inr namesMap
  | n :: names =>
      let n := TrimSpace n in
      match byName l n with
      | None => inl (errUnknownLintName n)
      | Some _ => lintNamesToMap_loop l names (<[n := true]> namesMap)
      end
  end.

(** [linterImpl.lintNamesToMap]: a nil map for an empty list. *)
Definition lintNamesToMap (l : linterImpl) (names : list string)
    : FilterError + option (gmap string bool) :=
  if decide (length names = 0%nat) then inr None
  else
    match lintNamesToMap_loop l names ∅ with
    | inl err => inl err
    | inr namesMap => inr (Some namesMap)
    end.

(** [len] of a map that may be nil. *)
Definition map_len (m : option (gmap string bool)) : nat :=
  match m with
  | None => 0
  | Some m => size m
  end.

(** The five tests of the body of the loop of [Filter], in order.
    [Some false] is a [continue], [Some true] reaches [register], and
    [None] is the nil dereference of [lint.Source]. *)
Definition Filter_tests (opts : FilterOptions)
    (sourceExcludes sourceIncludes nameExcludes nameIncludes : option (gmap string bool))
    (name : string) (lint : option Lint) : option bool :=
  excluded ← match sourceExcludes with
             | None => Some false
             | Some m => src ← Source <$> lint; Some (lookup_bool m src)
             end;
  if excluded : bool then Some false else
  not_included ← match sourceIncludes with
                 | None => Some false
                 | Some m => src ← Source <$> lint; Some (negb (lookup_bool m src))
                 end;
  if not_included : bool then Some false else
  if match NameFilter opts with
     | Some re => negb (MatchString re name)
     | None => false
     end
  then Some false else
  if match nameExcludes with
     | Some m => lookup_bool m name
     | None => false
     end
  then Some false else
  if match nameIncludes with
     | Some m => negb (lookup_bool m name)
     | None => false
     end
  then Some false else
  Some true.

(** The loop of [Filter] over [l.Names()], threading [filteredLinter]. *)
Fixpoint Filter_loop (l : linterImpl) (opts : FilterOptions)
    (sourceExcludes sourceIncludes nameExcludes nameIncludes : option (gmap string bool))
    (names : list string) (filteredLinter : linterImpl) : FilterResult :=
  match names with
  | [] => FilterNew filteredLinter
  | name :: names =>
      let lint := byName l name in
      match Filter_tests opts sourceExcludes sourceIncludes
              nameExcludes nameIncludes name lint with
      | None => FilterPanic
      | Some false =>
          Filter_loop l opts sourceExcludes sourceIncludes
            nameExcludes nameIncludes names filteredLinter
      | Some true =>
          match register filteredLinter lint false with
          | (filteredLinter, None) =>
              Filter_loop l opts sourceExcludes sourceIncludes
                nameExcludes nameIncludes names filteredLinter
          | (_, Some err) => FilterErr (errRegister err)
          end
      end
  end.

(** [linterImpl.Filter]. *)
Definition Filter (l : linterImpl) (opts : FilterOptions) : FilterResult :=
  if Empty opts then FilterSame
  else
    let filteredLinter := newLinter in
    let sourceExcludes := sourceListToMap (ExcludeSources opts) in
    let sourceIncludes := sourceListToMap (IncludeSources opts) in
    match lintNamesToMap l (ExcludeNames opts) with
    | inl err => FilterErr err
    | inr nameExcludes =>
        match lintNamesToMap l (IncludeNames opts) with
        | inl err => FilterErr err
        | inr nameIncludes =>
            if match NameFilter opts with Some _ => true | None => false end &&
               (negb (bool_decide (map_len nameExcludes = 0%nat)) ||
                negb (bool_decide (map_len nameIncludes = 0%nat)))
            then FilterErr errNameFilterConflict
            else
              Filter_loop l opts sourceExcludes sourceIncludes
                nameExcludes nameIncludes (Names l) filteredLinter
        end
    end.

(** The linter a successful [Filter] denotes: the receiver or the new one. *)
Definition filtered_linter (l : linterImpl) (r : FilterResult) : option linterImpl :=
  match r with
  | FilterSame => Some l
  | FilterNew filteredLinter => Some filteredLinter
  | _ => None
  end.

End Filtering.

Section Engine.

(** [x509.Certificate] of zcrypto, and [Lint.Execute], whose definition is
    not among the sources: the verdict of a rule on a certificate, a
    pointer that may be nil. *)
Variable Certificate : Type.
Variable Execute : Lint → Certificate → option LintResult.

(** [linterImpl.LintByName]; [start] and [finish] are the two readings of
    the clock. *)
Definition LintByName (l : linterImpl) (lintName : string) (cert : Certificate)
    (start finish : Z) : ResultSet :=
  let rs := newResultSet start in
  let rs := match byName l lintName with
            | Some lint => AddResult rs lintName (Execute lint cert)
            | None => rs
            end in
  set_LintEndTimestamp rs finish.

End Engine.


(** ** Invariants and the vocabulary of the properties *)

(** The invariant of a registry (section 3 of the specification): the sorted
    list of names and the name map have the same names, the list is sorted
    and without repetition, and every lint is stored under its own name,
    which is not empty, with a non-nil [Lint] field. *)
Record linter_wf (l : linterImpl) : Prop := mk_linter_wf {
  wf_names : ∀ name, name ∈ lintNames l ↔ is_Some (lintsByName l !! name);
  wf_NoDup : NoDup (lintNames l);
  wf_Sorted : Sorted String.le (lintNames l);
  wf_lints : ∀ name lint,
    lintsByName l !! name = Some lint →
    Name lint = name ∧ is_Some (Lint_Lint lint) ∧ name ≠ EmptyString
}.

(** The registries the program can build: [newLinter] followed by calls of
    [register]. *)
Inductive reachable : linterImpl → Prop :=
  | reachable_new : reachable newLinter
  | reachable_register linter l initialize :
      reachable linter → reachable (register linter l initialize).1.

(** A descriptor that [register] accepts into a registry without its name:
    a non-empty name, a non-nil [Lint] field and, when the initializer is
    run, an initializer that returns no error. *)
Definition valid_lint (initialize : bool) (l : Lint) : Prop :=
  Name l ≠ EmptyString ∧
  ∃ impl, Lint_Lint l = Some impl ∧
          (initialize = true → Initialize impl = None).

(** The state [register] leaves when it returns no error. *)
Definition registered (linter : linterImpl) (lint : Lint) : linterImpl :=
  mkLinterImpl
    (<[Name lint := lint]> (lintsByName linter))
    (sort_Strings (lintNames linter ++ [Name lint]))
    (<[Source lint :=
         default [] (lintsBySource linter !! Source lint) ++ [lint]]>
       (lintsBySource linter)).

(** The criteria record with no field set. *)
Definition no_criteria (opts : FilterOptions) : Prop :=
  NameFilter opts = None ∧
  IncludeNames opts = [] ∧ ExcludeNames opts = [] ∧
  IncludeSources opts = [] ∧ ExcludeSources opts = [].

Section FilterVocabulary.

(** How an entry of a name list is read: [strings.TrimSpace] for the code,
    the identity for a list taken literally. *)
Variable norm : string → string.

(** Every listed name is, once read, a registered rule name. *)
Definition names_known (l : linterImpl) (names : list string) : Prop :=
  Forall (λ n, is_Some (byName l (norm n))) names.

#[global] Instance names_known_dec (l : linterImpl) (names : list string) :
  Decision (names_known l names).
Proof. unfold names_known. apply _. Defined.

(** The pattern is not set together with a name list. *)
Definition no_conflict (opts : FilterOptions) : Prop :=
  ¬ (is_Some (NameFilter opts) ∧
     (ExcludeNames opts ≠ [] ∨ IncludeNames opts ≠ [])).

(** Valid criteria: the two validations of section 4.2. *)
Definition criteria_valid (l : linterImpl) (opts : FilterOptions) : Prop :=
  names_known l (ExcludeNames opts) ∧
  names_known l (IncludeNames opts) ∧
  no_conflict opts.

(** The five keep/drop tests of section 4.2 for a registered name. *)
Definition passes_tests (l : linterImpl) (opts : FilterOptions) (name : string) : Prop :=
  ∃ lint, byName l name = Some lint ∧
    (Source lint ∉ ExcludeSources opts) ∧
    (IncludeSources opts ≠ [] → Source lint ∈ IncludeSources opts) ∧
    (∀ re, NameFilter opts = Some re → MatchString re name = true) ∧
    (name ∉ norm <$> ExcludeNames opts) ∧
    (IncludeNames opts ≠ [] → name ∈ norm <$> IncludeNames opts).

(** [m != nil && m[k]] on a [map[string]bool] that may be nil. *)
Definition nonnil_has (m : option (gmap string bool)) (k : string) : bool :=
  match m with
  | None => false
  | Some m => lookup_bool m k
  end.

(** What the five tests of the loop of [Filter] compute for a non-nil lint:
    true when none of them drops the rule. *)
Definition kept (opts : FilterOptions)
    (sourceExcludes sourceIncludes nameExcludes nameIncludes : option (gmap string bool))
    (name : string) (lint : Lint) : bool :=
  negb (nonnil_has sourceExcludes (Source lint)) &&
  (bool_decide (sourceIncludes = None) || nonnil_has sourceIncludes (Source lint)) &&
  match NameFilter opts with
  | Some re => MatchString re name
  | None => true
  end &&
  negb (nonnil_has nameExcludes name) &&
  (bool_decide (nameIncludes = None) || nonnil_has nameIncludes name).

End FilterVocabulary.

(** ** Concrete data for the examples *)

(** [strings.TrimSpace] on strings of ASCII bytes: the white space of Go's
    [asciiSpace] table (tab, line feed, vertical tab, form feed, carriage
    return, space) is cut from both ends. *)
Fixpoint trim_left (s : string) : string :=
  match s with
  | String a s' => if Ascii.is_space a then trim_left s' else s
  | EmptyString => EmptyString
  end.

Definition TrimSpace_ascii (s : string) : string :=
  String.rev (trim_left (String.rev (trim_left s))).

Definition result (s : LintStatus) : option LintResult :=
  Some (mkLintResult s EmptyString).

(** An entry with status [Error] replaced by one with status [Pass]. *)
Definition rs_replaced : ResultSet :=
  AddResults (newResultSet 0) [("a", result Error); ("a", result Pass)].

(** The example of section 8: [{A: Error, B: Pass, C: Warning}]. *)
Definition rs_abc : ResultSet :=
  AddResults (newResultSet 0)
    [("A", result Error); ("B", result Pass); ("C", result Warn)].

Definition lint_named (name : string) (source : LintSource) : Lint :=
  mkLint name EmptyString EmptyString source 0 (Some (mkLintInterface None)).

(** A lint whose initializer fails. *)
Definition lint_bad_init (name : string) : Lint :=
  mkLint name EmptyString EmptyString "X" 0
    (Some (mkLintInterface (Some "setup failed"))).

(** A lint whose [Lint] field is nil. *)
Definition lint_nil_Lint (name : string) : Lint :=
  mkLint name EmptyString EmptyString "X" 0 None.

Definition linter_of (ls : list Lint) : linterImpl :=
  (register_all newLinter ls true).1.

(** A registry with the rules ["a"] and ["b"]. *)
Definition linter_ab : linterImpl :=
  linter_of [lint_named "b" "X"; lint_named "a" "Y"].

(** A registry in which both ["a"] and [" a"] are rule names. *)
Definition linter_a_spa : linterImpl :=
  linter_of [lint_named "a" "X"; lint_named " a" "X"].

(** The example of section 8: [r1] of provenance X, [r2] and [r3] of Y. *)
Definition linter_r123 : linterImpl :=
  linter_of [lint_named "r1" "X"; lint_named "r2" "Y"; lint_named "r3" "Y"].

Definition opts_none : FilterOptions :=
  mkFilterOptions None [] [] [] [].

Definition match_all : Regexp := mkRegexp (λ _, true).

(** Exclude provenance X and include the names [r1] and [r2]. *)
Definition opts_r123 : FilterOptions :=
  mkFilterOptions None ["r1"; "r2"] [] [] ["X"].

(** Exclude the name written [" a"]. *)
Definition opts_exclude_spa : FilterOptions :=
  mkFilterOptions None [] [" a"] [] [].

(** Include the name written [" a"]. *)
Definition opts_include_spa : FilterOptions :=
  mkFilterOptions None [" a"] [] [] [].

(** A pattern together with a name that is not registered. *)
Definition opts_pattern_unknown : FilterOptions :=
  mkFilterOptions (Some match_all) ["x"] [] [] [].

(** Two unregistered names in the exclude list, after a registered one, and
    one more in the include list. *)
Definition opts_unknown_x1 : FilterOptions :=
  mkFilterOptions None ["z"] ["a"; " x1"; "x2"] [] [].

(** A pattern together with a registered name. *)
Definition opts_pattern_known : FilterOptions :=
  mkFilterOptions (Some match_all) ["a"] [] [] [].

(** ** The rest of the registry, the engine and the command line *)

(** [linterImpl.Sources]: the keys of [lintsBySource], appended in the order
    the map yields them. *)
Definition Sources (l : linterImpl) : SourceList :=
  map_fold (λ k _ results, results ++ [k]) [] (lintsBySource l).

(** [RegisterLint], on the state of the default linter: the new state, or
    [None] for the panic on an error of [register]. *)
Definition RegisterLint (defaultLinter : linterImpl) (l : option Lint)
    : option linterImpl :=
  match register defaultLinter l true with
  | (linter, None) => Some linter
  | (_, Some err) => None
  end.

(** The provenance index agrees with the name map: the list kept for a
    provenance holds exactly the registered lints of that provenance, and no
    list is empty. *)
Record sources_wf (l : linterImpl) : Prop := mk_sources_wf {
  src_nonempty : ∀ s ls, lintsBySource l !! s = Some ls → ls ≠ [];
  src_members : ∀ s lint,
    lint ∈ default [] (lintsBySource l !! s) ↔
    lintsByName l !! Name lint = Some lint ∧ Source lint = s
}.

(** A presence flag that is unset has no entry of its severity: the half of
    the invariant of the flags that survives a replacement. *)
Definition flags_sound (rs : ResultSet) : Prop :=
  (any_status Notice rs = true → NoticesPresent rs = true) ∧
  (any_status Warn rs = true → WarningsPresent rs = true) ∧
  (any_status Error rs = true → ErrorsPresent rs = true) ∧
  (any_status Fatal rs = true → FatalsPresent rs = true).

(** The ways [doLint] ends the process through [log.Fatal]. *)
Inductive doLint_exit : Type :=
  | unable_to_read_file
  | unable_to_parse_PEM
  | unable_to_parse_base64
  | unknown_input_format
  | unable_to_parse_certificate
  | unable_to_encode_lints_JSON
  | cant_format_output.

(** How a call of [doLint] ends: a fatal log, a panic, or the bytes written
    to the standard output. *)
Inductive doLint_result : Type :=
  | doLint_Fatal (why : doLint_exit)
  | doLint_Panic
  | doLint_Stdout (written : list Byte.byte).

Section RunAll.

Variable Certificate : Type.
Variable Execute : Lint → Certificate → option LintResult.

(** The loop of [linterImpl.Lint] over [l.Names()]. [Execute] is called on
    the pointer [byName] returns; on a nil pointer it has no lint to read,
    which is the panic [None]. *)
Fixpoint Lint_loop (l : linterImpl) (cert : Certificate) (names : list string)
    (rs : ResultSet) : option ResultSet :=
  match names with
  | [] => Some rs
  | name :: names =>
      match byName l name with
      | None => None
      | Some lint => Lint_loop l cert names (AddResult rs name (Execute lint cert))
      end
  end.

(** [linterImpl.Lint]; [start] and [finish] are the two readings of the
    clock. *)
Definition linterImpl_Lint (l : linterImpl) (cert : Certificate)
    (start finish : Z) : option ResultSet :=
  match Lint_loop l cert (Names l) (newResultSet start) with
  | None => None
  | Some rs => Some (set_LintEndTimestamp rs finish)
  end.

(** What [zcrypto], [encoding/pem], [encoding/base64] and [encoding/json] do
    for [doLint]: each returns its value or fails. *)
Variable pem_Decode : list Byte.byte → option (string * list Byte.byte).
Variable base64_DecodeString : list Byte.byte → option (list Byte.byte).
Variable ParseCertificate : list Byte.byte → option Certificate.
Variable json_Marshal :
  option (gmap string (option LintResult)) → option (list Byte.byte).
Variable json_Indent : list Byte.byte → option (list Byte.byte).

(** The [switch inform] of [doLint]: the DER bytes of the certificate. *)
Definition doLint_asn1Data (fileBytes : list Byte.byte) (inform : string)
    : doLint_exit + list Byte.byte :=
  if decide (inform = "pem") then
    match pem_Decode fileBytes with
    | None => inl unable_to_parse_PEM
    | Some (type, bytes) =>
        if decide (type = "CERTIFICATE") then inr bytes
        else inl unable_to_parse_PEM
    end
  else if decide (inform = "der") then inr fileBytes
  else if decide (inform = "base64") then
    match base64_DecodeString fileBytes with
    | None => inl unable_to_parse_base64
    | Some asn1Data => inr asn1Data
    end
  else inl unknown_input_format.

(** [doLint] of the command line. [fileBytes] is what [ioutil.ReadAll]
    returned ([None] for its error), [prettyprint] the flag of that name,
    [minStatus] the pointer of that name. *)
Definition doLint (fileBytes : option (list Byte.byte)) (inform : string)
    (linter : linterImpl) (minStatus : option LintStatus) (prettyprint : bool)
    (start finish : Z) : doLint_result :=
  match fileBytes with
  | None => doLint_Fatal unable_to_read_file
  | Some fileBytes =>
  match doLint_asn1Data fileBytes inform with
  | inl why => doLint_Fatal why
  | inr asn1Data =>
  match ParseCertificate asn1Data with
  | None => doLint_Fatal unable_to_parse_certificate
  | Some c =>
  match linterImpl_Lint linter c start finish with
  | None => doLint_Panic
  | Some zlintResult =>
  match json_Marshal (Results zlintResult) with
  | None => doLint_Fatal unable_to_encode_lints_JSON
  | Some jsonBytes =>
  match
    match minStatus with
    | None => Some zlintResult
    | Some status =>
        match Above zlintResult status with
        | None => None
        | Some filteredResults =>
            Some (set_Results zlintResult (Some filteredResults))
        end
    end
  with
  | None => doLint_Panic
  | Some zlintResult =>
      if prettyprint then
        match json_Indent jsonBytes with
        | None => doLint_Fatal cant_format_output
        | Some out => doLint_Stdout (out ++ [Byte.x0a])
        end
      else doLint_Stdout (jsonBytes ++ [Byte.x0a])
  end end end end end end.

End RunAll.

(** ** More concrete data *)

(** A verdict that depends on the rule only: [Error] for the rule ["a"],
    [Pass] for every other rule. *)
Definition Execute_by_name (lint : Lint) (_ : unit) : option LintResult :=
  if decide (Name lint = "a") then result Error else result Pass.

(** A rule that returns a nil result. *)
Definition Execute_nil (lint : Lint) (_ : unit) : option LintResult := None.

(** The criteria with every entry of the two name lists trimmed. *)
Definition trimmed_names (TrimSpace : string → string) (opts : FilterOptions)
    : FilterOptions :=
  mkFilterOptions (NameFilter opts)
    (TrimSpace <$> IncludeNames opts) (TrimSpace <$> ExcludeNames opts)
    (IncludeSources opts) (ExcludeSources opts).

(** Exclude the name ["a"]. *)
Definition opts_exclude_a : FilterOptions :=
  mkFilterOptions None [] ["a"] [] [].

(** Exclude the provenance X. *)
Definition opts_exclude_X : FilterOptions :=
  mkFilterOptions None [] [] [] ["X"].

(** A command line run on DER input whose every library call succeeds:
    the bytes are a certificate, and the encoder writes one byte for each
    entry of the map of results. *)
Definition doLint_der (Execute : Lint → unit → option LintResult)
    (linter : linterImpl) (minStatus : option LintStatus) : doLint_result :=
  doLint unit Execute
    (λ _, None) (λ bytes, Some bytes) (λ _, Some ())
    (λ results, Some (replicate (size (default ∅ results)) Byte.x2e))
    (λ bytes, Some bytes)
    (Some []) "der" linter minStatus false 0 1.

(** A pattern that matches the names that start with the letter "a". *)
Definition match_a : Regexp :=
  mkRegexp (Stdlib.Strings.String.prefix "a").

(** Only a pattern. *)
Definition opts_pattern_a : FilterOptions :=
  mkFilterOptions (Some match_a) [] [] [] [].

(** Only an include list, with white space and a repeated name. *)
Definition opts_include_b_b : FilterOptions :=
  mkFilterOptions None [" b"; "b "] [] [] [].
(** ** Properties of the result model *)

Section ResultSetFacts.

Implicit Types (rs : ResultSet) (s status : LintStatus).
Implicit Types (res result : option LintResult) (name lintName : string).

Lemma entries_AddResult rs lintName result :
  entries (AddResult rs lintName result) = <[lintName := result]> (entries rs).
Proof.
  destruct rs as [v n w e f [m|] t1 t2], result as [[[] d]|]; reflexivity.
Qed.

Lemma Results_AddResult rs lintName result :
  Results (AddResult rs lintName result) = Some (<[lintName := result]> (entries rs)).
Proof.
  destruct rs as [v n w e f [m|] t1 t2], result as [[[] d]|]; reflexivity.
Qed.

Lemma flags_raised_AddResult rs lintName result :
  flags_raised rs (AddResult rs lintName result) result.
Proof.
  destruct rs as [v n w e f [m|] t1 t2], result as [[[] d]|];
    unfold flags_raised; simpl;
    rewrite ?orb_false_r, ?orb_true_r; done.
Qed.

Lemma any_status_true s rs :
  any_status s rs = true ↔
  ∃ name r, entries rs !! name = Some (Some r) ∧ Status r = s.
Proof.
  unfold any_status. rewrite existsb_exists. split.
  - intros ([name [r|]] & Hin & Hs); simpl in Hs; [|done].
    apply list_elem_of_In, elem_of_map_to_list in Hin.
    apply bool_decide_eq_true in Hs. eauto.
  - intros (name & r & Hl & Hs). exists (name, Some r). split.
    + by apply list_elem_of_In, elem_of_map_to_list.
    + simpl. by apply bool_decide_eq_true.
Qed.

Lemma has_status_true s res :
  has_status s res = true ↔ ∃ r, res = Some r ∧ Status r = s.
Proof.
  destruct res as [r|]; simpl.
  - rewrite bool_decide_eq_true. split.
    + intros Hs. by exists r.
    + by intros (r' & [= <-] & Hs).
  - split; [done|]. by intros (r' & [=] & _).
Qed.

(** Storing under a name that has no entry yet adds one term to the OR. *)
Lemma any_status_insert_fresh s rs rs' name res :
  entries rs' = <[name := res]> (entries rs) →
  entries rs !! name = None →
  any_status s rs' = any_status s rs || has_status s res.
Proof.
  intros Hm Hfresh. apply eq_true_iff_eq.
  rewrite orb_true_iff, !any_status_true, has_status_true, Hm. split.
  - intros (n & r & Hl & Hs).
    destruct (decide (name = n)) as [->|Hne].
    + rewrite lookup_insert_eq in Hl. right. naive_solver.
    + rewrite lookup_insert_ne in Hl by done. left. eauto.
  - intros [(n & r & Hl & Hs)|(r & -> & Hs)].
    + exists n, r. split; [|done].
      rewrite lookup_insert_ne; [done|]. intros ->. congruence.
    + exists name, r. by rewrite lookup_insert_eq.
Qed.

Lemma flags_consistent_newResultSet now : flags_consistent (newResultSet now).
Proof. repeat split. Qed.

Lemma flags_consistent_AddResult_fresh rs lintName result :
  flags_consistent rs →
  entries rs !! lintName = None →
  flags_consistent (AddResult rs lintName result).
Proof.
  intros (Hn & Hw & He & Hf) Hfresh.
  destruct (flags_raised_AddResult rs lintName result) as (Rn & Rw & Re & Rf).
  pose proof (entries_AddResult rs lintName result) as Hm.
  unfold flags_consistent.
  rewrite !(any_status_insert_fresh _ rs _ lintName result Hm Hfresh).
  rewrite Rn, Rw, Re, Rf, Hn, Hw, He, Hf. done.
Qed.

Lemma entries_AddResults rs inserts name :
  name ∉ inserts.*1 →
  entries (AddResults rs inserts) !! name = entries rs !! name.
Proof.
  revert rs. induction inserts as [|[n r] inserts IH]; intros rs Hnot; [done|].
  rewrite fmap_cons, not_elem_of_cons in Hnot. destruct Hnot as [Hne Hnot].
  simpl. unfold AddResults in IH. rewrite IH by done.
  rewrite entries_AddResult. simpl in Hne. by rewrite lookup_insert_ne.
Qed.


(** The result of [Above] when no stored pointer is nil. *)
Lemma Above_filter rs status :
  results_non_nil rs →
  Above rs status = Some (filter (status_above status) (entries rs)).
Proof.
  unfold Above, results_non_nil. generalize (entries rs). intros m.
  apply (map_fold_weak_ind (λ r m,
    map_Forall (λ _ res, is_Some res) m →
    r = Some (filter (status_above status) m))); clear m.
  - intros _. by rewrite map_filter_empty.
  - intros name res m acc Hfresh IH Hall.
    apply map_Forall_insert in Hall as [[r ->] Hall]; [|done].
    rewrite (IH Hall). simpl.
    destruct (Z.ltb_spec (status_value status) (status_value (Status r))) as [Hlt|Hge].
    + rewrite map_filter_insert_True; [done|]. exists r. done.
    + rewrite map_filter_insert_not'; [done| |].
      * intros (r' & [= <-] & Hlt). simpl in *. lia.
      * intros y Hy. congruence.
Qed.

Lemma Above_is_Some rs status :
  is_Some (Above rs status) ↔ results_non_nil rs.
Proof.
  split.
  - unfold Above, results_non_nil. generalize (entries rs). intros m.
    apply (map_fold_weak_ind (λ r m,
      is_Some r → map_Forall (λ _ res, is_Some res) m)); clear m.
    + intros _. apply map_Forall_empty.
    + intros name res m acc Hfresh IH Hsome.
      destruct acc as [acc|]; [|by destruct Hsome].
      destruct res as [r|]; [|by destruct Hsome].
      apply map_Forall_insert; [done|]. split; [by eexists|].
      apply IH. by eexists.
  - intros Hnn. rewrite Above_filter by done. by eexists.
Qed.


Lemma results_non_nil_filter rs status m :
  Above rs status = Some m →
  results_non_nil rs →
  results_non_nil (set_Results rs (Some m)).
Proof.
  intros Habove Hnn. rewrite Above_filter in Habove by done.
  injection Habove as <-. unfold results_non_nil. simpl.
  intros name res [Hl _]%map_lookup_filter_Some. by apply (Hnn name).
Qed.




(** The older [AddResult] agrees with the current one whenever it does not
    panic. *)
Lemma AddResult_v3_Some rs lintName result rs' :
  AddResult_v3 rs lintName result = Some rs' →
  rs' = AddResult rs lintName result.
Proof.
  destruct rs as [v n w e f [m|] t1 t2], result as [[[] d]|];
    simpl; intros [= <-]; reflexivity.
Qed.

(** C7. When no stored result is nil, [Above] returns exactly the entries
    whose status is strictly greater than the threshold, and applying it
    again, with the same threshold, to a result set whose map is that output
    returns the same map. *)
Theorem Above_exact_idempotent rs status :
  results_non_nil rs →
  ∃ m,
    Above rs status = Some m ∧
    (∀ name res,
       m !! name = Some res ↔
       entries rs !! name = Some res ∧
       ∃ r, res = Some r ∧ status_value status < status_value (Status r)) ∧
    Above (set_Results rs (Some m)) status = Some m.
Proof.
  intros Hnn. exists (filter (status_above status) (entries rs)).
  split; [by apply Above_filter|]. split.
  - intros name res. rewrite map_lookup_filter_Some. reflexivity.
  - rewrite Above_filter.
    + simpl. f_equal. apply map_filter_id.
      intros name res [_ Hp]%map_lookup_filter_Some. done.
    + eapply results_non_nil_filter; [by apply Above_filter|done].
Qed.

Lemma results_non_nil_rs_abc : results_non_nil rs_abc.
Proof.
  apply map_Forall_to_list. vm_compute.
  repeat constructor; by eexists.
Qed.

Lemma Above_exact_idempotent_witness :
  ∃ m,
    Above rs_abc Pass = Some m ∧
    (∀ name res,
       m !! name = Some res ↔
       entries rs_abc !! name = Some res ∧
       ∃ r, res = Some r ∧ status_value Pass < status_value (Status r)) ∧
    Above (set_Results rs_abc (Some m)) Pass = Some m.
Proof.
  apply (Above_exact_idempotent rs_abc Pass).
  apply map_Forall_to_list. vm_compute.
  repeat constructor; by eexists.
Defined.

(** The example of section 8 of the specification. *)
Example Above_rs_abc :
  Above rs_abc Pass = Some {["A" := result Error; "C" := result Warn]} ∧
  Above rs_abc Warn = Some {["A" := result Error]}.
Proof. split; by vm_compute. Qed.

(** C10. [AddResult] stores a nil result as it stores any other; [Above]
    returns without a panic exactly when no stored result is nil; and on a
    result set that has just received a nil result, [Above] dereferences it
    and panics. *)
Theorem Above_nil_result :
  (∀ rs lintName,
     entries (AddResult rs lintName None) !! lintName = Some None) ∧
  (∀ rs status, is_Some (Above rs status) ↔ results_non_nil rs) ∧
  (∀ rs lintName status, Above (AddResult rs lintName None) status = None) ∧
  (∀ now status, Above (AddResult (newResultSet now) "x" None) status = None).
Proof.
  assert (∀ rs lintName status,
            Above (AddResult rs lintName None) status = None) as Hpanic.
  { intros rs lintName status.
    apply eq_None_not_Some. rewrite Above_is_Some. intros Hnn.
    specialize (Hnn lintName None). rewrite entries_AddResult in Hnn.
    rewrite lookup_insert_eq in Hnn. by destruct (Hnn eq_refl). }
  split; [|split; [|split]].
  - intros rs lintName. by rewrite entries_AddResult, lookup_insert_eq.
  - apply Above_is_Some.
  - apply Hpanic.
  - intros now status. apply Hpanic.
Qed.

End ResultSetFacts.

(** ** Properties of the registry *)

Section RegistryFacts.

Implicit Types (linter l : linterImpl) (lint : Lint) (name : string).

Lemma sort_Strings_Permutation (names : list string) :
  sort_Strings names ≡ₚ names.
Proof. apply merge_sort_Permutation. Qed.

Lemma sort_Strings_Sorted (names : list string) :
  Sorted String.le (sort_Strings names).
Proof. apply (Sorted_merge_sort String.le). Qed.

(** A sorted list of names is determined by the names in it. *)
Lemma sort_Strings_unique (names names' : list string) :
  Sorted String.le names' →
  names' ≡ₚ names →
  names' = sort_Strings names.
Proof.
  intros Hs Hp. apply (Sorted_unique String.le); [done| |].
  - apply sort_Strings_Sorted.
  - by rewrite sort_Strings_Permutation.
Qed.

Lemma elem_of_sort_Strings name (names : list string) :
  name ∈ sort_Strings names ↔ name ∈ names.
Proof. by rewrite sort_Strings_Permutation. Qed.

Lemma register_Some linter lo initialize linter' :
  register linter lo initialize = (linter', None) →
  ∃ lint impl,
    lo = Some lint ∧ Lint_Lint lint = Some impl ∧
    Name lint ≠ EmptyString ∧
    byName linter (Name lint) = None ∧
    (initialize = true → Initialize impl = None) ∧
    linter' = registered linter lint.
Proof.
  unfold register. destruct lo as [lint|]; [|done].
  destruct (Lint_Lint lint) as [impl|] eqn:Himpl; [|done].
  destruct (decide (Name lint = EmptyString)); [done|].
  destruct (byName linter (Name lint)) eqn:Hby; [done|].
  destruct initialize.
  - destruct (Initialize impl) eqn:Hinit; [done|].
    intros [= <-]. exists lint, impl. done.
  - intros [= <-]. exists lint, impl. done.
Qed.

Lemma register_valid linter lint initialize :
  valid_lint initialize lint →
  byName linter (Name lint) = None →
  register linter (Some lint) initialize = (registered linter lint, None).
Proof.
  intros (Hname & impl & Himpl & Hinit) Hfree.
  unfold register. rewrite Himpl, Hfree.
  destruct (decide (Name lint = EmptyString)); [done|].
  destruct initialize; [|done]. by rewrite Hinit.
Qed.

(** A call of [register] that returns an error has changed nothing. *)
Lemma register_error_unchanged linter lo initialize err :
  (register linter lo initialize).2 = Some err →
  (register linter lo initialize).1 = linter.
Proof.
  unfold register. destruct lo as [lint|]; [|done].
  destruct (Lint_Lint lint) as [impl|]; [|done].
  destruct (decide (Name lint = EmptyString)); [done|].
  destruct (byName linter (Name lint)); [done|].
  destruct (if initialize then Initialize impl else None); done.
Qed.

Lemma register_cases linter lo initialize :
  (∃ err, register linter lo initialize = (linter, Some err)) ∨
  (∃ linter', register linter lo initialize = (linter', None)).
Proof.
  destruct (register linter lo initialize) as [linter' [err|]] eqn:Hr.
  - left. exists err.
    pose proof (register_error_unchanged linter lo initialize err) as Hu.
    rewrite Hr in Hu. simpl in Hu. by rewrite Hu.
  - right. by exists linter'.
Qed.

Lemma linter_wf_newLinter : linter_wf newLinter.
Proof.
  split; simpl.
  - intros name. rewrite lookup_empty. split; [by intros ?%elem_of_nil|].
    by intros [? ?].
  - constructor.
  - constructor.
  - intros name lint. by rewrite lookup_empty.
Qed.

Lemma byName_not_in_Names linter name :
  linter_wf linter → byName linter name = None → name ∉ lintNames linter.
Proof.
  intros Hwf Hby Hin. apply (wf_names _ Hwf) in Hin.
  unfold byName in Hby. rewrite Hby in Hin. by destruct Hin.
Qed.

Lemma linter_wf_registered linter lint :
  linter_wf linter →
  Name lint ≠ EmptyString →
  is_Some (Lint_Lint lint) →
  byName linter (Name lint) = None →
  linter_wf (registered linter lint).
Proof.
  intros Hwf Hname Himpl Hfree. split; simpl.
  - intros name. rewrite elem_of_sort_Strings, elem_of_app, list_elem_of_singleton.
    rewrite (wf_names _ Hwf).
    destruct (decide (Name lint = name)) as [<-|Hne].
    + rewrite lookup_insert_eq. split; [by eexists|by right].
    + rewrite lookup_insert_ne by done. split; [|by left].
      intros [?| ->]; done.
  - rewrite sort_Strings_Permutation. apply NoDup_app. split; [|split].
    + apply (wf_NoDup _ Hwf).
    + intros name Hin ->%list_elem_of_singleton.
      by apply (byName_not_in_Names linter (Name lint)).
    + apply NoDup_singleton.
  - apply sort_Strings_Sorted.
  - intros name lint'.
    destruct (decide (Name lint = name)) as [<-|Hne].
    + rewrite lookup_insert_eq. intros [= <-]. done.
    + rewrite lookup_insert_ne by done. apply (wf_lints _ Hwf).
Qed.

(** [register] keeps the invariant of the registry. *)
Lemma linter_wf_register linter lo initialize :
  linter_wf linter → linter_wf (register linter lo initialize).1.
Proof.
  intros Hwf.
  destruct (register_cases linter lo initialize) as [[err ->]|[linter' Hr]];
    [done|].
  rewrite Hr. simpl.
  apply register_Some in Hr as (lint & impl & -> & Himpl & Hname & Hfree & _ & ->).
  apply linter_wf_registered; [done..| |done]. by eexists.
Qed.

Lemma reachable_wf linter : reachable linter → linter_wf linter.
Proof.
  induction 1 as [|linter lo initialize _ IH].
  - apply linter_wf_newLinter.
  - by apply linter_wf_register.
Qed.

Lemma Names_registered linter lint name :
  name ∈ Names (registered linter lint) ↔ name = Name lint ∨ name ∈ Names linter.
Proof.
  unfold Names. simpl.
  rewrite elem_of_sort_Strings, elem_of_app, list_elem_of_singleton. tauto.
Qed.

Lemma byName_registered_ne linter lint name :
  name ≠ Name lint →
  byName (registered linter lint) name = byName linter name.
Proof. intros Hne. unfold byName. simpl. by rewrite lookup_insert_ne. Qed.

Lemma byName_registered_eq linter lint :
  byName (registered linter lint) (Name lint) = Some lint.
Proof. unfold byName. simpl. by rewrite lookup_insert_eq. Qed.

(** Registering a list of valid descriptors with distinct names, none of
    them in the registry yet. *)
Lemma register_all_valid linter (ls : list Lint) initialize :
  linter_wf linter →
  Forall (valid_lint initialize) ls →
  NoDup (Name <$> ls) →
  (∀ name, name ∈ Name <$> ls → byName linter name = None) →
  ∃ linter',
    register_all linter ls initialize = (linter', None) ∧
    linter_wf linter' ∧
    Names linter' ≡ₚ Names linter ++ (Name <$> ls).
Proof.
  revert linter.
  induction ls as [|lint ls IH]; intros linter Hwf Hvalid Hnd Hfree.
  - exists linter. simpl. by rewrite app_nil_r.
  - apply Forall_cons in Hvalid as [Hv Hvalid].
    rewrite fmap_cons in Hnd, Hfree. apply NoDup_cons in Hnd as [Hnotin Hnd].
    assert (byName linter (Name lint) = None) as Hfree1.
    { apply Hfree. left. }
    cbn [register_all]. rewrite (register_valid linter lint initialize Hv Hfree1).
    destruct Hv as (Hname & impl & Himpl & _).
    destruct (IH (registered linter lint)) as (linter' & Hr & Hwf' & Hperm);
      [|done|done| |].
    + apply linter_wf_registered; [done..| |done]. by eexists.
    + intros name Hin. rewrite byName_registered_ne.
      * apply Hfree. by right.
      * intros ->. done.
    + exists linter'. split; [done|]. split; [done|].
      rewrite Hperm. unfold Names at 1. simpl.
      rewrite sort_Strings_Permutation, <-app_assoc. done.
Qed.


Lemma valid_lint_named initialize name source :
  name ≠ EmptyString → valid_lint initialize (lint_named name source).
Proof. intros Hne. split; [done|]. by eexists. Qed.

(** C4. Registering valid descriptors with pairwise distinct names into a
    new registry succeeds in whatever order they come, and [Names()] is then
    the sorted list of exactly their names: a permutation of the names, in
    lexicographic order, the same for every order of registration. *)
Theorem register_all_Names (ls : list Lint) initialize :
  Forall (valid_lint initialize) ls →
  NoDup (Name <$> ls) →
  ∃ linter,
    register_all newLinter ls initialize = (linter, None) ∧
    Names linter = sort_Strings (Name <$> ls) ∧
    Sorted String.le (Names linter) ∧
    Names linter ≡ₚ Name <$> ls ∧
    ∀ ls', ls' ≡ₚ ls →
      ∃ linter',
        register_all newLinter ls' initialize = (linter', None) ∧
        Names linter' = Names linter.
Proof.
  intros Hvalid Hnd.
  destruct (register_all_valid newLinter ls initialize)
    as (linter & Hr & Hwf & Hperm); [apply linter_wf_newLinter|done|done|done|].
  simpl in Hperm.
  assert (Names linter = sort_Strings (Name <$> ls)) as Hnames.
  { apply sort_Strings_unique; [apply (wf_Sorted _ Hwf)|done]. }
  exists linter. repeat split; [done|done|apply (wf_Sorted _ Hwf)|done|].
  intros ls' Hls'.
  destruct (register_all_valid newLinter ls' initialize)
    as (linter' & Hr' & Hwf' & Hperm'); [apply linter_wf_newLinter| | |done|].
  - by rewrite Hls'.
  - by rewrite Hls'.
  - exists linter'. split; [done|]. rewrite Hnames.
    apply sort_Strings_unique; [apply (wf_Sorted _ Hwf')|].
    simpl in Hperm'. by rewrite Hperm', Hls'.
Qed.

Lemma register_all_Names_witness :
  ∃ linter,
    register_all newLinter [lint_named "b" "X"; lint_named "a" "Y"] true
      = (linter, None) ∧
    Names linter = sort_Strings (Name <$> [lint_named "b" "X"; lint_named "a" "Y"]) ∧
    Sorted String.le (Names linter) ∧
    Names linter ≡ₚ Name <$> [lint_named "b" "X"; lint_named "a" "Y"] ∧
    ∀ ls', ls' ≡ₚ [lint_named "b" "X"; lint_named "a" "Y"] →
      ∃ linter',
        register_all newLinter ls' true = (linter', None) ∧
        Names linter' = Names linter.
Proof.
  apply (register_all_Names [lint_named "b" "X"; lint_named "a" "Y"] true).
  - repeat first [apply Forall_nil_2 | apply Forall_cons_2];
      by apply valid_lint_named.
  - apply (bool_decide_unpack _). vm_compute. exact I.
Defined.

Example Names_linter_ab : Names linter_ab = ["a"; "b"].
Proof. by vm_compute. Qed.

(** C5 (amended). Of two descriptors with the same name and a non-nil
    [Lint] field each, whichever is registered second, after a first
    registration that returned no error, is refused with
    [errDuplicateName], and the registry stays as the first registration
    left it; and every call of [register] that returns an error, whatever
    the error, leaves the registry unchanged. *)
Theorem register_duplicate linter d1 d2 i1 i2 :
  Name d1 = Name d2 →
  is_Some (Lint_Lint d1) →
  is_Some (Lint_Lint d2) →
  (∀ linter1,
     register linter (Some d1) i1 = (linter1, None) →
     register linter1 (Some d2) i2
       = (linter1, Some (errDuplicateName (Name d2)))) ∧
  (∀ linter2,
     register linter (Some d2) i2 = (linter2, None) →
     register linter2 (Some d1) i1
       = (linter2, Some (errDuplicateName (Name d1)))) ∧
  (∀ lo initialize err,
     (register linter lo initialize).2 = Some err →
     (register linter lo initialize).1 = linter).
Proof.
  assert (∀ a b ia ib linter',
            Name a = Name b → is_Some (Lint_Lint b) →
            register linter (Some a) ia = (linter', None) →
            register linter' (Some b) ib
              = (linter', Some (errDuplicateName (Name b)))) as Hdup.
  { intros a b ia ib linter' Hab [impl Himpl] Hr.
    apply register_Some in Hr
      as (lint & impl' & [= <-] & _ & Hname & _ & _ & ->).
    unfold register. rewrite Himpl, <-Hab.
    destruct (decide (Name a = EmptyString)); [done|].
    by rewrite byName_registered_eq. }
  intros Hsame Hd1 Hd2. split; [|split].
  - intros linter1. by apply Hdup.
  - intros linter2. by apply Hdup.
  - apply register_error_unchanged.
Qed.

Lemma register_duplicate_witness :
  register (registered newLinter (lint_named "a" "X"))
    (Some (lint_named "a" "Y")) true
  = (registered newLinter (lint_named "a" "X"), Some (errDuplicateName "a")).
Proof.
  apply (proj1 (register_duplicate newLinter
                  (lint_named "a" "X") (lint_named "a" "Y") true true
                  eq_refl (mk_is_Some _ _ eq_refl) (mk_is_Some _ _ eq_refl))).
  reflexivity.
Defined.

(** C5 as stated fails for pairs of descriptors that the claim does not
    exclude. When the second descriptor of the name has a nil [Lint] field,
    the second call is refused with [errNilLintPtr], not with
    [errDuplicateName]: the nil checks come first. When the first call
    fails in its initializer, the name stays free and the second call
    succeeds. *)
Lemma register_duplicate_counterexample :
  Name (lint_named "a" "X") = Name (lint_nil_Lint "a") ∧
  register newLinter (Some (lint_named "a" "X")) true
    = (registered newLinter (lint_named "a" "X"), None) ∧
  register (registered newLinter (lint_named "a" "X"))
    (Some (lint_nil_Lint "a")) true
    = (registered newLinter (lint_named "a" "X"), Some errNilLintPtr) ∧
  Name (lint_bad_init "a") = Name (lint_named "a" "X") ∧
  register newLinter (Some (lint_bad_init "a")) true
    = (newLinter, Some (errBadInit "a" "setup failed")) ∧
  register newLinter (Some (lint_named "a" "X")) true
    ≠ (newLinter, Some (errDuplicateName "a")).
Proof.
  split; [reflexivity|]. split; [reflexivity|]. split; [reflexivity|].
  split; [reflexivity|]. split; [reflexivity|].
  intros Heq. injection Heq as _ Herr. discriminate Herr.
Qed.

(** Each error of [register], on a concrete registry. *)
Example register_errors :
  register linter_ab None true = (linter_ab, Some errNilLint) ∧
  register linter_ab
    (Some (mkLint "c" EmptyString EmptyString "X" 0 None)) true
    = (linter_ab, Some errNilLintPtr) ∧
  register linter_ab (Some (lint_named EmptyString "X")) true
    = (linter_ab, Some errEmptyName) ∧
  register linter_ab (Some (lint_named "a" "X")) true
    = (linter_ab, Some (errDuplicateName "a")) ∧
  register linter_ab (Some (lint_bad_init "c")) true
    = (linter_ab, Some (errBadInit "c" "setup failed")) ∧
  (register linter_ab (Some (lint_bad_init "c")) false).2 = None.
Proof. repeat split; by vm_compute. Qed.

End RegistryFacts.

(** ** Properties of filter resolution *)

Section FilterFacts.

Variable TrimSpace : string → string.

Implicit Types (l : linterImpl) (opts : FilterOptions) (name n : string).
Implicit Types (names : list string).

Lemma Empty_true opts : Empty opts = true ↔ no_criteria opts.
Proof.
  unfold Empty, no_criteria.
  rewrite !andb_true_iff, !bool_decide_eq_true, !length_zero_iff_nil.
  destruct (NameFilter opts); intuition congruence.
Qed.

Lemma lookup_bool_insert (m : gmap string bool) (k k' : string) :
  lookup_bool (<[k := true]> m) k' = true ↔ k' = k ∨ lookup_bool m k' = true.
Proof.
  unfold lookup_bool. destruct (decide (k = k')) as [->|Hne].
  - rewrite lookup_insert_eq. simpl. tauto.
  - rewrite lookup_insert_ne by done. split; [tauto|].
    intros [->|?]; done.
Qed.

Lemma sourceListToMap_loop (sources : list string) (m : gmap string bool) k :
  lookup_bool (foldl (λ sourceMap s, <[s := true]> sourceMap) m sources) k = true
  ↔ lookup_bool m k = true ∨ k ∈ sources.
Proof.
  revert m. induction sources as [|s sources IH]; intros m; simpl.
  - rewrite elem_of_nil. tauto.
  - rewrite IH, lookup_bool_insert, elem_of_cons. tauto.
Qed.

Lemma sourceListToMap_None (sources : list string) :
  sourceListToMap sources = None ↔ sources = [].
Proof.
  unfold sourceListToMap. destruct sources; simpl; split; done.
Qed.

Lemma nonnil_has_sourceListToMap (sources : list string) k :
  nonnil_has (sourceListToMap sources) k = true ↔ k ∈ sources.
Proof.
  unfold sourceListToMap.
  destruct (decide (length sources = 0%nat)) as [Hz|Hnz]; simpl.
  - apply length_zero_iff_nil in Hz as ->. rewrite elem_of_nil. done.
  - rewrite sourceListToMap_loop. unfold lookup_bool.
    rewrite lookup_empty. simpl. split; [by intros [?|?]|by right].
Qed.

(** The loop of [lintNamesToMap] either meets a name that, trimmed, is not
    registered and returns the error for the first of them, or returns the
    map of the trimmed names. *)
Lemma lintNamesToMap_loop_spec l names (namesMap : gmap string bool) :
  match lintNamesToMap_loop TrimSpace l names namesMap with
  | inr m =>
      names_known TrimSpace l names ∧
      ∀ k, lookup_bool m k = true ↔
           lookup_bool namesMap k = true ∨ k ∈ TrimSpace <$> names
  | inl err =>
      ∃ n, err = errUnknownLintName n ∧ byName l n = None ∧
           n ∈ TrimSpace <$> names ∧ ¬ names_known TrimSpace l names
  end.
Proof.
  revert namesMap. induction names as [|n names IH]; intros namesMap; simpl.
  - split; [constructor|]. intros k. rewrite elem_of_nil. tauto.
  - destruct (byName l (TrimSpace n)) as [lint|] eqn:Hby.
    + specialize (IH (<[TrimSpace n := true]> namesMap)).
      destruct (lintNamesToMap_loop TrimSpace l names _) as [err|m].
      * destruct IH as (n' & -> & Hn' & Hin & Hnot).
        exists n'. repeat split; [done|by right|].
        intros Hk. apply Hnot. by apply Forall_cons in Hk as [_ ?].
      * destruct IH as [Hk Hm]. split.
        -- apply Forall_cons. split; [by rewrite Hby|done].
        -- intros k. rewrite Hm, lookup_bool_insert, elem_of_cons. tauto.
    + exists (TrimSpace n). repeat split; [done|by left|].
      intros Hk. apply Forall_cons in Hk as [Hk _].
      rewrite Hby in Hk. by destruct Hk.
Qed.

Lemma lintNamesToMap_spec l names :
  match lintNamesToMap TrimSpace l names with
  | inr m =>
      names_known TrimSpace l names ∧
      (m = None ↔ names = []) ∧
      (map_len m = 0%nat ↔ names = []) ∧
      ∀ k, nonnil_has m k = true ↔ k ∈ TrimSpace <$> names
  | inl err =>
      ∃ n, err = errUnknownLintName n ∧ byName l n = None ∧
           n ∈ TrimSpace <$> names ∧ ¬ names_known TrimSpace l names
  end.
Proof.
  unfold lintNamesToMap.
  destruct (decide (length names = 0%nat)) as [Hz|Hnz].
  - apply length_zero_iff_nil in Hz as ->. simpl.
    split; [constructor|]. split; [done|]. split; [done|].
    intros k. rewrite elem_of_nil. done.
  - pose proof (lintNamesToMap_loop_spec l names ∅) as Hloop.
    destruct (lintNamesToMap_loop TrimSpace l names ∅) as [err|m]; [done|].
    destruct Hloop as [Hk Hm].
    assert (names ≠ []) as Hne by (by intros ->).
    assert (∀ k, lookup_bool m k = true ↔ k ∈ TrimSpace <$> names) as Hm'.
    { intros k. rewrite Hm. unfold lookup_bool at 1. rewrite lookup_empty.
      simpl. split; [by intros [?|?]|by right]. }
    split; [done|]. split; [by split|]. split; [|exact Hm'].
    split; [|done]. simpl. intros Hsize.
    apply map_size_empty_inv in Hsize as ->.
    destruct names as [|n names]; [done|].
    specialize (Hm' (TrimSpace n)). rewrite fmap_cons in Hm'.
    unfold lookup_bool in Hm'. rewrite lookup_empty in Hm'. simpl in Hm'.
    assert (false = true) by (apply Hm'; left). done.
Qed.

Lemma lintNamesToMap_known l names :
  names_known TrimSpace l names →
  ∃ m, lintNamesToMap TrimSpace l names = inr m ∧
       (m = None ↔ names = []) ∧
       (map_len m = 0%nat ↔ names = []) ∧
       ∀ k, nonnil_has m k = true ↔ k ∈ TrimSpace <$> names.
Proof.
  intros Hk. pose proof (lintNamesToMap_spec l names) as Hs.
  destruct (lintNamesToMap TrimSpace l names) as [err|m].
  - destruct Hs as (n & _ & _ & _ & Hnot). done.
  - exists m. split; [done|]. apply Hs.
Qed.

Lemma lintNamesToMap_unknown l names :
  ¬ names_known TrimSpace l names →
  ∃ n, lintNamesToMap TrimSpace l names = inl (errUnknownLintName n) ∧
       byName l n = None ∧ n ∈ TrimSpace <$> names.
Proof.
  intros Hnot. pose proof (lintNamesToMap_spec l names) as Hs.
  destruct (lintNamesToMap TrimSpace l names) as [err|m].
  - destruct Hs as (n & -> & Hby & Hin & _). by exists n.
  - by destruct Hs as [Hk _].
Qed.

(** With a non-nil lint the five tests never panic. *)
Lemma Filter_tests_Some opts sE sI nE nI name lint :
  Filter_tests opts sE sI nE nI name (Some lint)
  = Some (kept opts sE sI nE nI name lint).
Proof.
  unfold Filter_tests, kept.
  destruct sE as [sE|], sI as [sI|], nE as [nE|], nI as [nI|]; simpl;
    repeat match goal with
    | |- context [lookup_bool ?m ?k] => destruct (lookup_bool m k); simpl
    | |- context [NameFilter opts] => destruct (NameFilter opts); simpl
    | |- context [MatchString ?r ?k] => destruct (MatchString r k); simpl
    end; reflexivity.
Qed.


(** The loop of [Filter] over names of the source registry that the new
    registry does not hold yet: it ends without error, and the new registry
    has gained exactly the names that passed the tests. *)
Lemma Filter_loop_spec l opts sE sI nE nI names (acc : linterImpl) :
  linter_wf l →
  linter_wf acc →
  NoDup names →
  (∀ name, name ∈ names → name ∈ Names l) →
  (∀ name, name ∈ names → byName acc name = None) →
  ∃ acc',
    Filter_loop l opts sE sI nE nI names acc = FilterNew acc' ∧
    linter_wf acc' ∧
    ∀ name,
      name ∈ Names acc' ↔
      name ∈ Names acc ∨
      (name ∈ names ∧
       ∃ lint, byName l name = Some lint ∧
               kept opts sE sI nE nI name lint = true).
Proof.
  intros Hwf. revert acc.
  induction names as [|n names IH]; intros acc Hacc Hnd Hsub Hfree.
  - exists acc. split; [done|]. split; [done|].
    intros name. split; [by left|].
    intros [?|[?%elem_of_nil _]]; done.
  - apply NoDup_cons in Hnd as [Hn Hnd].
    assert (n ∈ lintNames l) as Hin by (apply Hsub; left).
    apply (wf_names _ Hwf) in Hin as [lint Hlint].
    destruct (wf_lints _ Hwf n lint Hlint) as (Hname & Himpl & Hne).
    cbn [Filter_loop]. unfold byName at 1 2. rewrite Hlint.
    rewrite Filter_tests_Some.
    destruct (kept opts sE sI nE nI n lint) eqn:Hkept.
    + assert (valid_lint false lint) as Hvalid.
      { split; [by rewrite Hname|]. destruct Himpl as [impl Himpl].
        by exists impl. }
      rewrite (register_valid acc lint false Hvalid)
        by (rewrite Hname; apply Hfree; left).
      destruct (IH (registered acc lint)) as (acc' & Hloop & Hwf' & Hnames).
      * apply linter_wf_registered; [done|by rewrite Hname|done|].
        rewrite Hname. apply Hfree. left.
      * done.
      * intros name ?. apply Hsub. by right.
      * intros name Hname'. rewrite byName_registered_ne.
        -- apply Hfree. by right.
        -- rewrite Hname. intros ->. done.
      * exists acc'. split; [done|]. split; [done|].
        intros name. rewrite Hnames, Names_registered, Hname, elem_of_cons.
        split.
        -- intros [[->|?]|[? ?]]; [|by left|right; split; [by right|done]].
           right. split; [by left|]. by exists lint.
        -- intros [?|[[->|?] ?]]; [left; by right|left; by left|].
           right. done.
    + destruct (IH acc) as (acc' & Hloop & Hwf' & Hnames); [done|done| | |].
      * intros name ?. apply Hsub. by right.
      * intros name ?. apply Hfree. by right.
      * exists acc'. split; [done|]. split; [done|].
        intros name. rewrite Hnames, elem_of_cons. split.
        -- intros [?|[? ?]]; [by left|right; split; [by right|done]].
        -- intros [?|[[->|?] Hk]]; [by left| |right; done].
           destruct Hk as (lint' & Hl' & Hk). unfold byName in Hl'.
           rewrite Hlint in Hl'. injection Hl' as <-. congruence.
Qed.

(** The five tests as the loop computes them, against the five tests as
    section 4.2 words them. *)
Lemma kept_passes_tests l opts nE nI name lint :
  byName l name = Some lint →
  (∀ k, nonnil_has nE k = true ↔ k ∈ TrimSpace <$> ExcludeNames opts) →
  (nI = None ↔ IncludeNames opts = []) →
  (∀ k, nonnil_has nI k = true ↔ k ∈ TrimSpace <$> IncludeNames opts) →
  kept opts (sourceListToMap (ExcludeSources opts))
    (sourceListToMap (IncludeSources opts)) nE nI name lint = true
  ↔ passes_tests TrimSpace l opts name.
Proof.
  intros Hlint HnE HnI0 HnI. unfold kept, passes_tests.
  rewrite !andb_true_iff, !orb_true_iff, !negb_true_iff,
    !bool_decide_eq_true, <-!not_true_iff_false.
  rewrite !nonnil_has_sourceListToMap, sourceListToMap_None, HnE, HnI, HnI0.
  split.
  - intros ((((H1 & H2) & H3) & H4) & H5). exists lint.
    repeat split; [done|done| | |done|].
    + intros Hne. by destruct H2.
    + intros re Hre. by rewrite Hre in H3.
    + intros Hne. by destruct H5.
  - intros (lint' & Hl' & H1 & H2 & H3 & H4 & H5).
    rewrite Hlint in Hl'. injection Hl' as <-.
    repeat split; [done| | |done|].
    + destruct (decide (IncludeSources opts = [])); [by left|right; auto].
    + destruct (NameFilter opts) as [re|]; [by apply H3|done].
    + destruct (decide (IncludeNames opts = [])); [by left|right; auto].
Qed.

(** C1 (amended). On a registry that satisfies its invariant, with criteria
    that are not empty and are valid (no pattern together with a name list,
    and every listed name registered once [strings.TrimSpace] has been
    applied to it), [Filter] returns a new registry, and a name is in its
    [Names()] exactly when it is a name of the source registry that passes
    the five tests in their order of precedence, where "is in the name list"
    means "equals the trimmed form of an entry of the list". *)
Theorem Filter_names l opts :
  linter_wf l →
  ¬ no_criteria opts →
  criteria_valid TrimSpace l opts →
  ∃ filteredLinter,
    Filter TrimSpace l opts = FilterNew filteredLinter ∧
    linter_wf filteredLinter ∧
    ∀ name,
      name ∈ Names filteredLinter ↔
      name ∈ Names l ∧ passes_tests TrimSpace l opts name.
Proof.
  intros Hwf Hnonempty (HkE & HkI & Hconf).
  unfold Filter.
  destruct (Empty opts) eqn:Hempty; [by apply Empty_true in Hempty|].
  destruct (lintNamesToMap_known l _ HkE) as (nE & -> & HnE0 & HnElen & HnE).
  destruct (lintNamesToMap_known l _ HkI) as (nI & -> & HnI0 & HnIlen & HnI).
  assert ((match NameFilter opts with Some _ => true | None => false end &&
           (negb (bool_decide (map_len nE = 0%nat)) ||
            negb (bool_decide (map_len nI = 0%nat)))) = false) as ->.
  { apply not_true_iff_false. intros Hc. apply Hconf.
    apply andb_true_iff in Hc as [Hf Hl]. split.
    - destruct (NameFilter opts); [by eexists|done].
    - apply orb_true_iff in Hl as [Hl|Hl];
        apply negb_true_iff, bool_decide_eq_false in Hl.
      + left. by rewrite <-HnElen.
      + right. by rewrite <-HnIlen. }
  destruct (Filter_loop_spec l opts
              (sourceListToMap (ExcludeSources opts))
              (sourceListToMap (IncludeSources opts))
              nE nI (Names l) newLinter)
    as (acc' & Hloop & Hwf' & Hnames).
  - done.
  - apply linter_wf_newLinter.
  - apply (wf_NoDup _ Hwf).
  - done.
  - done.
  - exists acc'. split; [done|]. split; [done|].
    intros name. rewrite Hnames. split.
    + intros [[]%elem_of_nil|[Hin (lint & Hlint & Hk)]]. split; [done|].
      by apply (kept_passes_tests l opts nE nI name lint).
    + intros [Hin Hp]. right. split; [done|].
      destruct Hp as (lint & Hlint & Hp). exists lint. split; [done|].
      apply (kept_passes_tests l opts nE nI name lint); [done..|].
      by exists lint.
Qed.

(** C2 (amended). With the pattern set and a name list that is not empty,
    [Filter] always fails: with the error of conflicting criteria when every
    listed name is, once trimmed, a registered name, and otherwise with the
    error of an unknown lint name, since the lists are resolved before the
    conflict is looked for. *)
Theorem Filter_conflicting_criteria l opts :
  is_Some (NameFilter opts) →
  IncludeNames opts ≠ [] ∨ ExcludeNames opts ≠ [] →
  ∃ err,
    Filter TrimSpace l opts = FilterErr err ∧
    (names_known TrimSpace l (ExcludeNames opts) ∧
     names_known TrimSpace l (IncludeNames opts) →
     err = errNameFilterConflict) ∧
    (¬ (names_known TrimSpace l (ExcludeNames opts) ∧
        names_known TrimSpace l (IncludeNames opts)) →
     ∃ n, err = errUnknownLintName n ∧ byName l n = None).
Proof.
  intros [re Hre] Hlists. unfold Filter.
  assert (Empty opts = false) as ->.
  { apply not_true_iff_false. intros (Hf & _)%Empty_true. congruence. }
  destruct (decide (names_known TrimSpace l (ExcludeNames opts))) as [HkE|HkE].
  - destruct (lintNamesToMap_known l _ HkE) as (nE & -> & _ & HnElen & _).
    destruct (decide (names_known TrimSpace l (IncludeNames opts))) as [HkI|HkI].
    + destruct (lintNamesToMap_known l _ HkI) as (nI & -> & _ & HnIlen & _).
      rewrite Hre.
      assert ((negb (bool_decide (map_len nE = 0%nat)) ||
               negb (bool_decide (map_len nI = 0%nat))) = true) as ->.
      { apply orb_true_iff.
        destruct Hlists as [Hne|Hne]; [right|left];
          apply negb_true_iff, bool_decide_eq_false; intros Hz; apply Hne.
        - by apply HnIlen.
        - by apply HnElen. }
      simpl. exists errNameFilterConflict. split; [done|]. split; [done|].
      intros Hnot. destruct Hnot. done.
    + destruct (lintNamesToMap_unknown l _ HkI) as (n & -> & Hby & _).
      exists (errUnknownLintName n). split; [done|]. split.
      * intros [_ ?]. done.
      * intros _. by exists n.
  - destruct (lintNamesToMap_unknown l _ HkE) as (n & -> & Hby & _).
    exists (errUnknownLintName n). split; [done|]. split.
    + intros [? _]. done.
    + intros _. by exists n.
Qed.

(** The loop of [lintNamesToMap] on a list with an entry that, trimmed, is
    not registered: the error names the first such entry. *)
Lemma lintNamesToMap_loop_first_unknown l names (namesMap : gmap string bool) :
  ¬ names_known TrimSpace l names →
  ∃ before e after,
    names = before ++ e :: after ∧
    names_known TrimSpace l before ∧
    byName l (TrimSpace e) = None ∧
    lintNamesToMap_loop TrimSpace l names namesMap
    = inl (errUnknownLintName (TrimSpace e)).
Proof.
  revert namesMap. induction names as [|n names IH]; intros namesMap Hnot.
  - destruct Hnot. constructor.
  - cbn [lintNamesToMap_loop].
    destruct (byName l (TrimSpace n)) as [lint|] eqn:Hby.
    + destruct (IH (<[TrimSpace n := true]> namesMap))
        as (before & e & after & -> & Hknown & He & Hloop).
      { intros Hk. apply Hnot. apply Forall_cons. split; [|done].
        rewrite Hby. by eexists. }
      exists (n :: before), e, after. split; [done|]. split; [|done].
      apply Forall_cons. split; [|done]. rewrite Hby. by eexists.
    + exists [], n, names. split; [done|]. split; [constructor|done].
Qed.

Lemma lintNamesToMap_first_unknown l names :
  ¬ names_known TrimSpace l names →
  ∃ before e after,
    names = before ++ e :: after ∧
    names_known TrimSpace l before ∧
    byName l (TrimSpace e) = None ∧
    lintNamesToMap TrimSpace l names = inl (errUnknownLintName (TrimSpace e)).
Proof.
  intros Hnot.
  destruct (lintNamesToMap_loop_first_unknown l names ∅ Hnot)
    as (before & e & after & Hnames & Hknown & He & Hloop).
  exists before, e, after. split; [done|]. split; [done|]. split; [done|].
  unfold lintNamesToMap.
  destruct (decide (length names = 0%nat)) as [Hz|Hnz].
  - apply length_zero_iff_nil in Hz. rewrite Hz in Hnames.
    by destruct before.
  - by rewrite Hloop.
Qed.

(** C6 (amended). If the trimmed form of some entry of the include or
    exclude name list is not a registered name, [Filter] fails with the
    error of an unknown lint name, and the name it reports is the trimmed
    form of the first such entry, the exclude list being read before the
    include list: every entry before it is, once trimmed, registered. *)
Theorem Filter_unknown_name l opts n :
  n ∈ ExcludeNames opts ∨ n ∈ IncludeNames opts →
  byName l (TrimSpace n) = None →
  ∃ before e after,
    ExcludeNames opts ++ IncludeNames opts = before ++ e :: after ∧
    names_known TrimSpace l before ∧
    byName l (TrimSpace e) = None ∧
    Filter TrimSpace l opts = FilterErr (errUnknownLintName (TrimSpace e)).
Proof.
  intros Hin Hunknown. unfold Filter.
  assert (∀ names, n ∈ names → ¬ names_known TrimSpace l names) as Hnot.
  { intros names Hn Hk. unfold names_known in Hk.
    rewrite Forall_forall in Hk. specialize (Hk n Hn).
    rewrite Hunknown in Hk. by destruct Hk. }
  assert (Empty opts = false) as ->.
  { apply not_true_iff_false. intros (_ & HI & HE & _)%Empty_true.
    rewrite HI, HE in Hin. by destruct Hin as [?%elem_of_nil|?%elem_of_nil]. }
  destruct (decide (names_known TrimSpace l (ExcludeNames opts))) as [HkE|HkE].
  - destruct (lintNamesToMap_known l _ HkE) as (nE & -> & _).
    destruct Hin as [Hin|Hin]; [by destruct (Hnot _ Hin)|].
    destruct (lintNamesToMap_first_unknown l _ (Hnot _ Hin))
      as (before & e & after & HI & Hknown & He & ->).
    exists (ExcludeNames opts ++ before), e, after.
    split; [by rewrite HI, app_assoc|].
    split; [by apply Forall_app|done].
  - destruct (lintNamesToMap_first_unknown l _ HkE)
      as (before & e & after & HE & Hknown & He & ->).
    exists before, e, (after ++ IncludeNames opts).
    split; [by rewrite HE, <-app_assoc|done].
Qed.

(** C8. With empty criteria [Filter] succeeds and returns the receiver
    itself, not a new registry; the names are therefore those of the
    source. *)
Theorem Filter_no_criteria l opts :
  no_criteria opts →
  Filter TrimSpace l opts = FilterSame ∧
  filtered_linter l (Filter TrimSpace l opts) = Some l ∧
  Names <$> filtered_linter l (Filter TrimSpace l opts) = Some (Names l).
Proof.
  intros Hempty%Empty_true. unfold Filter. rewrite Hempty. done.
Qed.

End FilterFacts.

(** ** Filter resolution on concrete registries *)

Lemma linter_wf_register_all linter (ls : list Lint) initialize :
  linter_wf linter → linter_wf (register_all linter ls initialize).1.
Proof.
  revert linter. induction ls as [|lint ls IH]; intros linter Hwf; [done|].
  cbn [register_all].
  pose proof (linter_wf_register linter (Some lint) initialize Hwf) as Hstep.
  destruct (register linter (Some lint) initialize) as [linter' [err|]].
  - done.
  - by apply IH.
Qed.

Lemma linter_wf_linter_of (ls : list Lint) : linter_wf (linter_of ls).
Proof. apply linter_wf_register_all, linter_wf_newLinter. Qed.

Lemma Filter_names_witness :
  ∃ filteredLinter,
    Filter TrimSpace_ascii linter_r123 opts_r123 = FilterNew filteredLinter ∧
    linter_wf filteredLinter ∧
    ∀ name,
      name ∈ Names filteredLinter ↔
      name ∈ Names linter_r123 ∧
      passes_tests TrimSpace_ascii linter_r123 opts_r123 name.
Proof.
  apply (Filter_names TrimSpace_ascii linter_r123 opts_r123).
  - apply linter_wf_linter_of.
  - intros (_ & Hnames & _). discriminate Hnames.
  - split; [|split].
    + constructor.
    + unfold names_known. apply (bool_decide_unpack _). vm_compute. exact I.
    + intros [[re Hre] _]. discriminate Hre.
Defined.

(** The example of section 8: [r1] is dropped by its provenance, [r3] by
    the include list, and [r2] stays. *)
Example Filter_r123 :
  Names <$> filtered_linter linter_r123
              (Filter TrimSpace_ascii linter_r123 opts_r123)
  = Some ["r2"].
Proof. by vm_compute. Qed.

(** C1 as stated fails when list membership is taken literally. The
    registry has the rules ["a"] and [" a"], and the exclude list is
    [[" a"]]: every listed name is registered, yet the code drops ["a"], which
    is not in the list, and keeps [" a"], which is. *)
Lemma Filter_names_literal_counterexample :
  linter_wf linter_a_spa ∧
  ¬ no_criteria opts_exclude_spa ∧
  criteria_valid id linter_a_spa opts_exclude_spa ∧
  Names linter_a_spa = [" a"; "a"] ∧
  ∃ filteredLinter,
    Filter TrimSpace_ascii linter_a_spa opts_exclude_spa
      = FilterNew filteredLinter ∧
    Names filteredLinter = [" a"] ∧
    ¬ (" a" ∈ Names filteredLinter ↔
       " a" ∈ Names linter_a_spa ∧
       passes_tests id linter_a_spa opts_exclude_spa " a") ∧
    ¬ ("a" ∈ Names filteredLinter ↔
       "a" ∈ Names linter_a_spa ∧
       passes_tests id linter_a_spa opts_exclude_spa "a").
Proof.
  split; [apply linter_wf_linter_of|].
  split; [intros (_ & _ & Hnames & _); discriminate Hnames|].
  split.
  { split; [|split].
    - unfold names_known. apply (bool_decide_unpack _). vm_compute. exact I.
    - constructor.
    - intros [[re Hre] _]. discriminate Hre. }
  split; [by vm_compute|].
  eexists. split; [by vm_compute|]. split; [reflexivity|]. split.
  - intros [Hkeep _].
    destruct Hkeep as (_ & lint & _ & _ & _ & _ & Hex & _); [left|].
    apply Hex. simpl. left.
  - intros [_ Hdrop].
    assert ("a" ∈ [" a"]) as Hin.
    { apply Hdrop. split; [vm_compute; right; left|].
      exists (lint_named "a" "X"). split; [by vm_compute|].
      split; [by intros ?%elem_of_nil|]. split; [done|]. split; [done|].
      split; [|done]. simpl.
      intros [Heq|?%elem_of_nil]%elem_of_cons; [discriminate Heq|done]. }
    apply list_elem_of_singleton in Hin. discriminate Hin.
Qed.

Lemma Filter_conflicting_criteria_witness :
  ∃ err,
    Filter TrimSpace_ascii linter_ab opts_pattern_known = FilterErr err ∧
    (names_known TrimSpace_ascii linter_ab (ExcludeNames opts_pattern_known) ∧
     names_known TrimSpace_ascii linter_ab (IncludeNames opts_pattern_known) →
     err = errNameFilterConflict) ∧
    (¬ (names_known TrimSpace_ascii linter_ab (ExcludeNames opts_pattern_known) ∧
        names_known TrimSpace_ascii linter_ab (IncludeNames opts_pattern_known)) →
     ∃ n, err = errUnknownLintName n ∧ byName linter_ab n = None).
Proof.
  apply (Filter_conflicting_criteria TrimSpace_ascii linter_ab opts_pattern_known).
  - by eexists.
  - left. discriminate.
Defined.

Example Filter_pattern_known :
  Filter TrimSpace_ascii linter_ab opts_pattern_known
  = FilterErr errNameFilterConflict.
Proof. by vm_compute. Qed.

(** C2 as stated fails when a listed name is not registered: the pattern is
    set and the include list is not empty, yet the error is the one of the
    unknown name ["x"], not the one of conflicting criteria. *)
Lemma Filter_conflict_counterexample :
  is_Some (NameFilter opts_pattern_unknown) ∧
  IncludeNames opts_pattern_unknown ≠ [] ∧
  Filter TrimSpace_ascii linter_ab opts_pattern_unknown
    = FilterErr (errUnknownLintName "x") ∧
  Filter TrimSpace_ascii linter_ab opts_pattern_unknown
    ≠ FilterErr errNameFilterConflict.
Proof.
  split; [by eexists|]. split; [discriminate|].
  split; [by vm_compute|]. vm_compute. discriminate.
Qed.

Lemma Filter_unknown_name_witness :
  ∃ before e after,
    ExcludeNames opts_unknown_x1 ++ IncludeNames opts_unknown_x1
      = before ++ e :: after ∧
    names_known TrimSpace_ascii linter_ab before ∧
    byName linter_ab (TrimSpace_ascii e) = None ∧
    Filter TrimSpace_ascii linter_ab opts_unknown_x1
      = FilterErr (errUnknownLintName (TrimSpace_ascii e)).
Proof.
  apply (Filter_unknown_name TrimSpace_ascii linter_ab opts_unknown_x1 "z").
  - right. left.
  - by vm_compute.
Defined.

(** The exclude list is read first and stops at its first unknown entry:
    of [" x1"], ["x2"] and ["z"] it is ["x1"] that is reported. *)
Example Filter_unknown_x1 :
  Filter TrimSpace_ascii linter_ab opts_unknown_x1
  = FilterErr (errUnknownLintName "x1").
Proof. by vm_compute. Qed.

(** C6 as stated fails on a name that is registered only once trimmed:
    [" a"] is in the include list and is not a registered name, yet [Filter]
    succeeds, with the rule ["a"]. *)
Lemma Filter_unknown_name_counterexample :
  " a" ∈ IncludeNames opts_include_spa ∧
  byName linter_ab " a" = None ∧
  (" a" ∉ Names linter_ab) ∧
  ∃ filteredLinter,
    Filter TrimSpace_ascii linter_ab opts_include_spa = FilterNew filteredLinter ∧
    Names filteredLinter = ["a"].
Proof.
  split; [left|]. split; [by vm_compute|]. split.
  - apply (bool_decide_unpack _). by vm_compute.
  - eexists. split; by vm_compute.
Qed.

Lemma Filter_no_criteria_witness :
  Filter TrimSpace_ascii linter_ab opts_none = FilterSame ∧
  filtered_linter linter_ab (Filter TrimSpace_ascii linter_ab opts_none)
    = Some linter_ab ∧
  Names <$> filtered_linter linter_ab (Filter TrimSpace_ascii linter_ab opts_none)
    = Some (Names linter_ab).
Proof.
  apply (Filter_no_criteria TrimSpace_ascii linter_ab opts_none).
  repeat split.
Defined.

Example TrimSpace_ascii_examples :
  TrimSpace_ascii " a" = "a" ∧
  TrimSpace_ascii "a b " = "a b" ∧
  TrimSpace_ascii "   " = EmptyString ∧
  TrimSpace_ascii "a" = "a".
Proof. repeat split. Qed.

(** ** Properties of the execution engine *)

Section EngineFacts.

Variable Certificate : Type.
Variable Execute : Lint → Certificate → option LintResult.

(** C9. For a name that is not registered, [LintByName] returns a result
    set with an empty map of results and the four presence flags unset, and
    there is no error to return; for a registered name the map has exactly
    one entry, the verdict of that lint under that name. *)
Theorem LintByName_result (l : linterImpl) (lintName : string)
    (cert : Certificate) (start finish : Z) :
  (byName l lintName = None →
   let rs := LintByName Certificate Execute l lintName cert start finish in
   Results rs = Some ∅ ∧
   NoticesPresent rs = false ∧ WarningsPresent rs = false ∧
   ErrorsPresent rs = false ∧ FatalsPresent rs = false) ∧
  (∀ lint, byName l lintName = Some lint →
   Results (LintByName Certificate Execute l lintName cert start finish)
   = Some {[lintName := Execute lint cert]}).
Proof.
  unfold LintByName. split.
  - intros ->. done.
  - intros lint ->. simpl. rewrite Results_AddResult. done.
Qed.

End EngineFacts.

Lemma LintByName_result_witness :
  Results (LintByName unit (λ lint _, result Error) linter_ab "zz" () 0 1)
    = Some ∅ ∧
  Results (LintByName unit (λ lint _, result Error) linter_ab "a" () 0 1)
    = Some {["a" := result Error]}.
Proof.
  split.
  - apply (proj1 (LintByName_result unit (λ lint _, result Error)
                    linter_ab "zz" () 0 1)).
    by vm_compute.
  - apply (proj2 (LintByName_result unit (λ lint _, result Error)
                    linter_ab "a" () 0 1) (lint_named "a" "Y")).
    by vm_compute.
Defined.

(** ** Further properties of the result model *)

Section ResultSetMore.

Implicit Types (rs : ResultSet) (s t status : LintStatus).
Implicit Types (res result : option LintResult) (name lintName : string).

Lemma AddResult_fields rs lintName result :
  Version (AddResult rs lintName result) = Version rs ∧
  LintStartTimestamp (AddResult rs lintName result) = LintStartTimestamp rs ∧
  LintEndTimestamp (AddResult rs lintName result) = LintEndTimestamp rs.
Proof.
  destruct rs as [v n w e f [m|] t1 t2], result as [[[] d]|]; done.
Qed.

(** X1. What [AddResult] stores is what a lookup finds: the entry of the
    name is the result just given, nil included, every other entry is as
    before, the map is not nil afterwards, and the version and the two
    timestamps are untouched. *)
Theorem AddResult_lookup rs lintName result :
  Results (AddResult rs lintName result) ≠ None ∧
  entries (AddResult rs lintName result) !! lintName = Some result ∧
  (∀ name, name ≠ lintName →
     entries (AddResult rs lintName result) !! name = entries rs !! name) ∧
  Version (AddResult rs lintName result) = Version rs ∧
  LintStartTimestamp (AddResult rs lintName result) = LintStartTimestamp rs ∧
  LintEndTimestamp (AddResult rs lintName result) = LintEndTimestamp rs.
Proof.
  split; [by rewrite Results_AddResult|].
  rewrite entries_AddResult. split; [by rewrite lookup_insert_eq|].
  split; [intros name Hne; by rewrite lookup_insert_ne|].
  apply AddResult_fields.
Qed.

Lemma flags_sound_AddResult rs lintName result :
  flags_sound rs → flags_sound (AddResult rs lintName result).
Proof.
  intros (Hn & Hw & He & Hf).
  destruct (flags_raised_AddResult rs lintName result) as (Rn & Rw & Re & Rf).
  assert (∀ s, any_status s (AddResult rs lintName result) = true →
               any_status s rs = true ∨ has_status s result = true) as Hany.
  { intros s (name & r & Hl & Hs)%any_status_true.
    rewrite entries_AddResult in Hl.
    destruct (decide (lintName = name)) as [->|Hne].
    - rewrite lookup_insert_eq in Hl. injection Hl as ->.
      right. apply has_status_true. by exists r.
    - rewrite lookup_insert_ne in Hl by done.
      left. apply any_status_true. by exists name, r. }
  unfold flags_sound. rewrite Rn, Rw, Re, Rf, !orb_true_iff.
  repeat split; intros [?|?]%Hany; auto.
Qed.

(** X2. Whatever is inserted, under new names or as replacements, a presence
    flag that is unset means that no entry has that severity: from a result
    set whose flags cover its entries, every sequence of [AddResult] leads
    to one whose flags cover its entries. *)
Theorem AddResults_flags_sound rs inserts :
  flags_sound rs → flags_sound (AddResults rs inserts).
Proof.
  revert rs. induction inserts as [|[n r] inserts IH]; intros rs Hs; [done|].
  simpl. apply IH. by apply flags_sound_AddResult.
Qed.

Lemma AddResults_flags_sound_witness : flags_sound rs_replaced.
Proof.
  apply (AddResults_flags_sound (newResultSet 0)
           [("a", result Error); ("a", result Pass)]).
  repeat split; intros Hany; vm_compute in Hany; discriminate Hany.
Defined.

(** X3. The older [AddResult] panics exactly when the map of results is nil
    or the result is nil; whenever it returns, it leaves the result set that
    the current [AddResult] leaves. *)
Theorem AddResult_v3_panics rs lintName result :
  (AddResult_v3 rs lintName result = None ↔
   Results rs = None ∨ result = None) ∧
  (∀ rs', AddResult_v3 rs lintName result = Some rs' →
          rs' = AddResult rs lintName result).
Proof.
  split.
  - destruct rs as [v n w e f [m|] t1 t2], result as [[[] d]|]; simpl;
      split; intros H; try done; try (by left); try (by right);
      by destruct H.
  - intros rs'. apply AddResult_v3_Some.
Qed.

(** X4. Narrowing twice is narrowing by both thresholds: [Above] applied to
    the output of [Above] keeps exactly the entries above both, which is the
    output of [Above] for the second threshold alone when that one is the
    higher. *)
Theorem Above_compose rs s t m :
  Above rs s = Some m →
  ∃ m',
    Above (set_Results rs (Some m)) t = Some m' ∧
    (∀ name res,
       m' !! name = Some res ↔
       entries rs !! name = Some res ∧
       ∃ r, res = Some r ∧
            status_value s < status_value (Status r) ∧
            status_value t < status_value (Status r)) ∧
    (status_value s ≤ status_value t → Above rs t = Some m').
Proof.
  intros Hs.
  assert (results_non_nil rs) as Hnn by (apply (Above_is_Some rs s); by eexists).
  pose proof (results_non_nil_filter rs s m Hs Hnn) as Hnn'.
  rewrite Above_filter in Hs by done. injection Hs as <-.
  exists (filter (status_above t) (filter (status_above s) (entries rs))).
  split; [by rewrite Above_filter|]. split.
  - intros name res. rewrite !map_lookup_filter_Some. unfold status_above. simpl.
    split.
    + intros [[Hl (r & -> & Hsr)] (r' & [= <-] & Htr)]. eauto.
    + intros [Hl (r & -> & Hsr & Htr)]. eauto 10.
  - intros Hle. rewrite Above_filter by done. f_equal.
    apply map_eq. intros name. apply option_eq. intros res.
    rewrite !map_lookup_filter_Some. unfold status_above. simpl. split.
    + intros [Hl (r & -> & Htr)]. repeat split; eauto. exists r. split; [done|lia].
    + intros [[Hl _] Ht]. done.
Qed.

Lemma Above_compose_witness :
  ∃ m',
    Above (set_Results rs_abc
             (Some {["A" := result Error; "C" := result Warn]})) Warn
      = Some m' ∧
    (∀ name res,
       m' !! name = Some res ↔
       entries rs_abc !! name = Some res ∧
       ∃ r, res = Some r ∧
            status_value Pass < status_value (Status r) ∧
            status_value Warn < status_value (Status r)) ∧
    (status_value Pass ≤ status_value Warn → Above rs_abc Warn = Some m').
Proof.
  apply (Above_compose rs_abc Pass Warn). by vm_compute.
Defined.

(** X5. [Above] only ever removes entries, and a higher threshold removes
    more: when [Above] returns for a threshold, it returns for every higher
    threshold a map contained in the first, itself contained in the map of
    results. *)
Theorem Above_antitone rs s t ms :
  status_value s ≤ status_value t →
  Above rs s = Some ms →
  ∃ mt, Above rs t = Some mt ∧ mt ⊆ ms ∧ ms ⊆ entries rs.
Proof.
  intros Hle Hs.
  assert (results_non_nil rs) as Hnn by (apply (Above_is_Some rs s); by eexists).
  rewrite Above_filter in Hs by done. injection Hs as <-.
  exists (filter (status_above t) (entries rs)).
  split; [by apply Above_filter|]. split; [|apply map_filter_subseteq].
  apply map_subseteq_spec. intros name res.
  rewrite !map_lookup_filter_Some. unfold status_above. simpl.
  intros [Hl (r & -> & Htr)]. split; [done|]. exists r. split; [done|lia].
Qed.

Lemma Above_antitone_witness :
  ∃ mt, Above rs_abc Warn = Some mt ∧
        mt ⊆ {["A" := result Error; "C" := result Warn]} ∧
        {["A" := result Error; "C" := result Warn]} ⊆ entries rs_abc.
Proof.
  apply (Above_antitone rs_abc Pass Warn).
  - by vm_compute.
  - by vm_compute.
Defined.

End ResultSetMore.

(** ** Further properties of the registry *)

Section RegistryMore.

Implicit Types (linter l : linterImpl) (lint : Lint) (name : string).

(** X6. [register] returns no error exactly for a non-nil descriptor with a
    non-empty name that is not registered yet and a non-nil [Lint] field
    whose initializer, when it is run, returns no error; with
    [initialize = false] the initializer is not consulted. *)
Theorem register_succeeds_iff linter lo initialize :
  (register linter lo initialize).2 = None ↔
  ∃ lint,
    lo = Some lint ∧
    Name lint ≠ EmptyString ∧
    byName linter (Name lint) = None ∧
    ∃ impl, Lint_Lint lint = Some impl ∧
            (initialize = true → Initialize impl = None).
Proof.
  split.
  - destruct (register linter lo initialize) as [linter' [err|]] eqn:Hr; [done|].
    intros _.
    apply register_Some in Hr
      as (lint & impl & -> & Himpl & Hname & Hfree & Hinit & _).
    exists lint. repeat split; [done..|]. by exists impl.
  - intros (lint & -> & Hname & Hfree & impl & Himpl & Hinit).
    rewrite (register_valid linter lint initialize); [done| |done].
    split; [done|]. by exists impl.
Qed.

(** X7. A lint is found under its name as soon as it is registered: after a
    call of [register] that returns no error, [byName] gives the descriptor
    for its name and what it gave before for every other name, [Names()] has
    gained exactly that name, and the descriptor is in the list of its
    provenance. *)
Theorem register_lookup linter lo initialize linter' :
  register linter lo initialize = (linter', None) →
  ∃ lint,
    lo = Some lint ∧
    byName linter' (Name lint) = Some lint ∧
    (∀ name, name ≠ Name lint → byName linter' name = byName linter name) ∧
    (∀ name, name ∈ Names linter' ↔ name = Name lint ∨ name ∈ Names linter) ∧
    lint ∈ default [] (lintsBySource linter' !! Source lint).
Proof.
  intros (lint & impl & -> & _ & _ & _ & _ & ->)%register_Some.
  exists lint. split; [done|]. split; [apply byName_registered_eq|].
  split; [intros name Hne; by apply byName_registered_ne|].
  split; [apply Names_registered|].
  simpl. rewrite lookup_insert_eq. simpl. apply elem_of_app. right. left.
Qed.

Lemma register_lookup_witness :
  ∃ lint,
    Some (lint_named "a" "X") = Some lint ∧
    byName (registered newLinter (lint_named "a" "X")) (Name lint) = Some lint ∧
    (∀ name, name ≠ Name lint →
       byName (registered newLinter (lint_named "a" "X")) name
       = byName newLinter name) ∧
    (∀ name, name ∈ Names (registered newLinter (lint_named "a" "X")) ↔
             name = Name lint ∨ name ∈ Names newLinter) ∧
    lint ∈ default []
             (lintsBySource (registered newLinter (lint_named "a" "X"))
                !! Source lint).
Proof.
  apply (register_lookup newLinter (Some (lint_named "a" "X")) true).
  reflexivity.
Defined.

Lemma sources_wf_newLinter : sources_wf newLinter.
Proof.
  split; simpl.
  - intros s ls. by rewrite lookup_empty.
  - intros s lint. rewrite !lookup_empty. simpl. split.
    + by intros ?%elem_of_nil.
    + by intros [? _].
Qed.

Lemma sources_wf_registered linter lint :
  sources_wf linter →
  byName linter (Name lint) = None →
  sources_wf (registered linter lint).
Proof.
  intros [Hne Hmem] Hfree. unfold byName in Hfree. split; simpl.
  - intros s ls. destruct (decide (Source lint = s)) as [<-|Hs].
    + rewrite lookup_insert_eq. intros [= <-]. by intros [? ?]%app_eq_nil.
    + rewrite lookup_insert_ne by done. apply Hne.
  - intros s lint'. destruct (decide (Source lint = s)) as [<-|Hs].
    + rewrite lookup_insert_eq. simpl.
      rewrite elem_of_app, list_elem_of_singleton, Hmem.
      destruct (decide (Name lint = Name lint')) as [Hn|Hn].
      * rewrite <-Hn, lookup_insert_eq, Hfree. split.
        -- intros [[? _]| ->]; done.
        -- intros [[= ->] _]. by right.
      * rewrite lookup_insert_ne by done. split.
        -- intros [?| ->]; done.
        -- intros [? ?]. by left.
    + rewrite lookup_insert_ne by done. rewrite Hmem.
      destruct (decide (Name lint = Name lint')) as [Hn|Hn].
      * rewrite <-Hn, lookup_insert_eq, Hfree. split.
        -- by intros [? _].
        -- intros [[= ->] ?]. done.
      * by rewrite lookup_insert_ne.
Qed.

Lemma sources_wf_register linter lo initialize :
  sources_wf linter → sources_wf (register linter lo initialize).1.
Proof.
  intros Hwf.
  destruct (register_cases linter lo initialize) as [[err ->]|[linter' Hr]];
    [done|].
  rewrite Hr. simpl.
  apply register_Some in Hr as (lint & impl & -> & _ & _ & Hfree & _ & ->).
  by apply sources_wf_registered.
Qed.

Lemma reachable_sources_wf linter : reachable linter → sources_wf linter.
Proof.
  induction 1 as [|linter lo initialize _ IH].
  - apply sources_wf_newLinter.
  - by apply sources_wf_register.
Qed.

(** X8. Every registry the program can build, from [newLinter] by calls of
    [register] that succeed or fail, satisfies the invariant of the
    registry: the sorted list of names, the name map and the provenance
    index describe the same set of rules. *)
Theorem reachable_invariant linter :
  reachable linter → linter_wf linter ∧ sources_wf linter.
Proof.
  induction 1 as [|linter lo initialize _ [IH1 IH2]].
  - split; [apply linter_wf_newLinter|apply sources_wf_newLinter].
  - split; [by apply linter_wf_register|by apply sources_wf_register].
Qed.

Lemma reachable_register_all linter (ls : list Lint) initialize :
  reachable linter → reachable (register_all linter ls initialize).1.
Proof.
  revert linter. induction ls as [|lint ls IH]; intros linter Hr; [done|].
  cbn [register_all].
  pose proof (reachable_register linter (Some lint) initialize Hr) as Hstep.
  destruct (register linter (Some lint) initialize) as [linter' [err|]].
  - done.
  - by apply IH.
Qed.

Lemma reachable_linter_of (ls : list Lint) : reachable (linter_of ls).
Proof. apply reachable_register_all, reachable_new. Qed.

Lemma reachable_invariant_witness : linter_wf linter_ab ∧ sources_wf linter_ab.
Proof.
  apply (reachable_invariant linter_ab).
  apply (reachable_register_all newLinter
           [lint_named "b" "X"; lint_named "a" "Y"] true).
  apply reachable_new.
Defined.

Lemma Sources_keys l :
  NoDup (Sources l) ∧ ∀ s, s ∈ Sources l ↔ is_Some (lintsBySource l !! s).
Proof.
  unfold Sources. generalize (lintsBySource l). intros m.
  apply (map_fold_weak_ind (λ r (m : gmap string (list Lint)),
    NoDup r ∧ ∀ s, s ∈ r ↔ is_Some (m !! s))); clear m.
  - split; [constructor|]. intros s. rewrite lookup_empty. split.
    + by intros ?%elem_of_nil.
    + by intros [? ?].
  - intros k ls m r Hfresh [Hnd Hin]. split.
    + apply NoDup_app. split; [done|]. split; [|apply NoDup_singleton].
      intros s Hs ->%list_elem_of_singleton. apply Hin in Hs.
      rewrite Hfresh in Hs. by destruct Hs.
    + intros s. rewrite elem_of_app, list_elem_of_singleton, Hin.
      destruct (decide (k = s)) as [->|Hne].
      * rewrite lookup_insert_eq. split; [by eexists|by right].
      * rewrite lookup_insert_ne by done. split; [|by left].
        intros [?| ->]; done.
Qed.

Lemma Sources_registered l s :
  sources_wf l →
  s ∈ Sources l →
  ∃ lint, byName l (Name lint) = Some lint ∧ Source lint = s.
Proof.
  intros [Hne Hmem] [ls Hls]%(proj2 (Sources_keys l)).
  specialize (Hne s ls Hls). destruct ls as [|lint ls]; [done|].
  exists lint. apply Hmem. rewrite Hls. simpl. left.
Qed.

(** X9. On a registry whose provenance index agrees with its name map,
    [Sources()] lists each provenance once, and a provenance is listed
    exactly when some registered lint has it. *)
Theorem Sources_spec l :
  sources_wf l →
  NoDup (Sources l) ∧
  ∀ s, s ∈ Sources l ↔
       ∃ lint, byName l (Name lint) = Some lint ∧ Source lint = s.
Proof.
  intros [Hne Hmem]. destruct (Sources_keys l) as [Hnd Hkeys].
  split; [done|]. intros s. rewrite Hkeys. split.
  - intros [ls Hls]. specialize (Hne s ls Hls).
    destruct ls as [|lint ls]; [done|]. exists lint.
    apply Hmem. rewrite Hls. simpl. left.
  - intros (lint & Hlint & Hs).
    assert (lint ∈ default [] (lintsBySource l !! s)) as Hin
      by (by apply Hmem).
    destruct (lintsBySource l !! s) as [ls|]; [by eexists|].
    simpl in Hin. by apply elem_of_nil in Hin.
Qed.

Lemma Sources_spec_witness :
  NoDup (Sources linter_ab) ∧
  ∀ s, s ∈ Sources linter_ab ↔
       ∃ lint, byName linter_ab (Name lint) = Some lint ∧ Source lint = s.
Proof.
  apply (Sources_spec linter_ab).
  apply reachable_sources_wf, reachable_linter_of.
Defined.

(** X10. [RegisterLint] panics exactly when the lint is nil, its [Lint]
    field is nil, its name is empty, its name is already registered, or its
    initializer, which is always run, returns an error; otherwise the
    default linter becomes the registry with the lint added. *)
Theorem RegisterLint_panics defaultLinter lo :
  (RegisterLint defaultLinter lo = None ↔
   lo = None ∨
   ∃ lint, lo = Some lint ∧
     (Lint_Lint lint = None ∨
      Name lint = EmptyString ∨
      is_Some (byName defaultLinter (Name lint)) ∨
      ∃ impl err, Lint_Lint lint = Some impl ∧ Initialize impl = Some err)) ∧
  (∀ linter, RegisterLint defaultLinter lo = Some linter →
     ∃ lint, lo = Some lint ∧ linter = registered defaultLinter lint).
Proof.
  unfold RegisterLint, register. split.
  - destruct lo as [lint|]; [|split; [by left|done]].
    destruct (Lint_Lint lint) as [impl|] eqn:Himpl.
    2:{ split; [|done]. intros _. right. exists lint. split; [done|by left]. }
    destruct (decide (Name lint = EmptyString)) as [Hname|Hname].
    { split; [|done]. intros _. right. exists lint. split; [done|].
      right. by left. }
    destruct (byName defaultLinter (Name lint)) as [existing|] eqn:Hby.
    { split; [|done]. intros _. right. exists lint. split; [done|].
      right. right. left. by eexists. }
    destruct (Initialize impl) as [err|] eqn:Hinit.
    { split; [|done]. intros _. right. exists lint. split; [done|].
      right. right. right. by exists impl, err. }
    split; [done|].
    intros [[=]|(lint' & [= <-] & [H|[H|[H|H]]])].
    + congruence.
    + congruence.
    + rewrite Hby in H. by destruct H.
    + destruct H as (impl' & err & H1 & H2). congruence.
  - intros linter.
    destruct lo as [lint|]; [|done].
    destruct (Lint_Lint lint) as [impl|]; [|done].
    destruct (decide (Name lint = EmptyString)); [done|].
    destruct (byName defaultLinter (Name lint)); [done|].
    destruct (Initialize impl); [done|].
    intros [= <-]. by exists lint.
Qed.

End RegistryMore.

(** ** Further properties of filter resolution *)

Section FilterMore.

Variable TrimSpace : string → string.

Implicit Types (l : linterImpl) (opts : FilterOptions) (name n : string).
Implicit Types (names : list string).

Lemma StronglySorted_sublist {A} (R : relation A) (l1 l2 : list A) :
  l1 `sublist_of` l2 → StronglySorted R l2 → StronglySorted R l1.
Proof.
  induction 1 as [|x l1 l2 Hsub IH|x l1 l2 Hsub IH]; intros Hs.
  - constructor.
  - apply StronglySorted_inv in Hs as [Hs Hall]. constructor; [by apply IH|].
    rewrite Forall_forall in Hall. apply Forall_forall. intros y Hy.
    apply Hall. by apply (sublist_subseteq _ _ Hsub).
  - apply StronglySorted_inv in Hs as [Hs _]. by apply IH.
Qed.

(** Of two sorted lists of names without repetition, the one whose names
    are all in the other is a sublist of it. *)
Lemma sorted_subset_sublist (l1 l2 : list string) :
  Sorted String.le l1 → NoDup l1 →
  Sorted String.le l2 → NoDup l2 →
  l1 ⊆ l2 → l1 `sublist_of` l2.
Proof.
  intros Hs1 Hnd1 Hs2 Hnd2 Hsub.
  assert (l1 = filter (λ x, x ∈ l1) l2) as ->; [|apply sublist_filter].
  apply (Sorted_unique String.le); [done| |].
  - apply StronglySorted_Sorted.
    apply (StronglySorted_sublist _ _ l2); [apply sublist_filter|].
    by apply (Sorted_StronglySorted String.le).
  - apply NoDup_Permutation; [done|by apply NoDup_filter|].
    intros x. rewrite list_elem_of_filter. split; [|tauto].
    intros Hx. split; [done|by apply Hsub].
Qed.

(** The loop of [Filter] only ever registers lints of the source registry,
    each as the source registry holds it. *)
Lemma Filter_loop_sub l opts sE sI nE nI names (acc acc' : linterImpl) :
  linter_wf l →
  Filter_loop l opts sE sI nE nI names acc = FilterNew acc' →
  reachable acc →
  lintsByName acc ⊆ lintsByName l →
  reachable acc' ∧ lintsByName acc' ⊆ lintsByName l.
Proof.
  intros Hwf. revert acc.
  induction names as [|n names IH]; intros acc Hloop Hreach Hsub.
  - simpl in Hloop. injection Hloop as <-. done.
  - cbn [Filter_loop] in Hloop.
    destruct (Filter_tests opts sE sI nE nI n (byName l n)) as [[|]|];
      [| |done].
    + destruct (register acc (byName l n) false) as [acc1 [err|]] eqn:Hr;
        [done|].
      apply (IH acc1); [done| |].
      * pose proof (reachable_register acc (byName l n) false Hreach) as H1.
        by rewrite Hr in H1.
      * apply register_Some in Hr as (lint & impl & Hl & _ & _ & _ & _ & ->).
        simpl. apply insert_subseteq_l; [|done].
        destruct (wf_lints _ Hwf n lint Hl) as [-> _]. done.
    + by apply (IH acc).
Qed.

(** What a call of [Filter] that returns a new registry tells. *)
Lemma Filter_New_inv l opts l' :
  linter_wf l →
  Filter TrimSpace l opts = FilterNew l' →
  ¬ no_criteria opts ∧
  criteria_valid TrimSpace l opts ∧
  reachable l' ∧
  lintsByName l' ⊆ lintsByName l ∧
  ∀ name, name ∈ Names l' ↔
          name ∈ Names l ∧ passes_tests TrimSpace l opts name.
Proof.
  intros Hwf. unfold Filter.
  destruct (Empty opts) eqn:Hempty; [done|].
  pose proof (lintNamesToMap_spec TrimSpace l (ExcludeNames opts)) as HsE.
  destruct (lintNamesToMap TrimSpace l (ExcludeNames opts)) as [?|nE]; [done|].
  pose proof (lintNamesToMap_spec TrimSpace l (IncludeNames opts)) as HsI.
  destruct (lintNamesToMap TrimSpace l (IncludeNames opts)) as [?|nI]; [done|].
  destruct HsE as (HkE & _ & HnElen & HnE).
  destruct HsI as (HkI & HnI0 & HnIlen & HnI).
  destruct (_ && _) eqn:Hconf; [done|]. intros Hloop.
  split; [intros Hno%Empty_true; congruence|]. split.
  { split; [done|]. split; [done|]. intros [[re Hre] Hlists].
    rewrite Hre in Hconf. simpl in Hconf.
    apply orb_false_iff in Hconf as [HcE HcI].
    apply negb_false_iff, bool_decide_eq_true in HcE, HcI.
    destruct Hlists as [Hne|Hne]; apply Hne.
    - by apply HnElen.
    - by apply HnIlen. }
  destruct (Filter_loop_sub l opts _ _ nE nI (Names l) newLinter l' Hwf Hloop)
    as [Hreach Hsub]; [apply reachable_new|apply map_empty_subseteq|].
  split; [done|]. split; [done|].
  destruct (Filter_loop_spec l opts
              (sourceListToMap (ExcludeSources opts))
              (sourceListToMap (IncludeSources opts))
              nE nI (Names l) newLinter)
    as (acc' & Hloop' & _ & Hnames);
    [done|apply linter_wf_newLinter|apply (wf_NoDup _ Hwf)|done|done|].
  rewrite Hloop in Hloop'. injection Hloop' as <-.
  intros name. rewrite Hnames. split.
  - intros [[]%elem_of_nil|[Hin (lint & Hlint & Hk)]]. split; [done|].
    by apply (kept_passes_tests TrimSpace l opts nE nI name lint).
  - intros [Hin Hp]. right. split; [done|].
    destruct Hp as (lint & Hlint & Hp). exists lint. split; [done|].
    apply (kept_passes_tests TrimSpace l opts nE nI name lint); [done..|].
    by exists lint.
Qed.

(** X11. The registry [Filter] builds is a sub-registry of its source: it
    is one the program can build by registrations, every rule it holds is
    the descriptor the source holds under that name, and its [Names()] is a
    sublist of the source's. *)
Theorem Filter_sub_registry l opts l' :
  linter_wf l →
  Filter TrimSpace l opts = FilterNew l' →
  reachable l' ∧
  (∀ name lint, byName l' name = Some lint → byName l name = Some lint) ∧
  Names l' `sublist_of` Names l.
Proof.
  intros Hwf HF.
  destruct (Filter_New_inv l opts l' Hwf HF) as (_ & _ & Hreach & Hsub & Hnames).
  split; [done|]. split.
  - intros name lint Hl. unfold byName in *.
    by apply (lookup_weaken _ _ _ _ Hl).
  - pose proof (reachable_wf l' Hreach) as Hwf'.
    apply sorted_subset_sublist;
      [apply (wf_Sorted _ Hwf')|apply (wf_NoDup _ Hwf')
      |apply (wf_Sorted _ Hwf)|apply (wf_NoDup _ Hwf)|].
    intros name Hin. by apply Hnames in Hin as [? _].
Qed.

(** X12. Criteria that exclude names cannot be applied twice: the excluded
    names are no longer registered in the registry [Filter] returns, so
    [Filter] with the same criteria on that registry fails with the error of
    an unknown lint name. *)
Theorem Filter_exclude_not_repeatable l opts l' :
  linter_wf l →
  ExcludeNames opts ≠ [] →
  Filter TrimSpace l opts = FilterNew l' →
  ∃ n, Filter TrimSpace l' opts = FilterErr (errUnknownLintName n) ∧
       byName l' n = None.
Proof.
  intros Hwf Hne HF.
  destruct (Filter_New_inv l opts l' Hwf HF)
    as (Hnonempty & _ & Hreach & _ & Hnames).
  pose proof (reachable_wf l' Hreach) as Hwf'.
  destruct (ExcludeNames opts) as [|e es] eqn:HE; [done|].
  assert (¬ names_known TrimSpace l' (ExcludeNames opts)) as Hunknown.
  { rewrite HE. intros [[lint Hl] _]%Forall_cons.
    assert (TrimSpace e ∈ Names l') as Hin.
    { apply (wf_names _ Hwf'). unfold byName in Hl. by eexists. }
    apply Hnames in Hin as [_ (lint' & _ & _ & _ & _ & Hex & _)].
    apply Hex. rewrite HE, fmap_cons. left. }
  destruct (lintNamesToMap_unknown TrimSpace l' _ Hunknown) as (n & Hn & Hby & _).
  exists n. split; [|done]. unfold Filter.
  destruct (Empty opts) eqn:Hempty; [by apply Empty_true in Hempty|].
  by rewrite Hn.
Qed.

Lemma lintNamesToMap_loop_trimmed l names (namesMap : gmap string bool) :
  Forall (λ n, TrimSpace (TrimSpace n) = TrimSpace n) names →
  lintNamesToMap_loop TrimSpace l (TrimSpace <$> names) namesMap
  = lintNamesToMap_loop TrimSpace l names namesMap.
Proof.
  revert namesMap. induction names as [|n names IH]; intros namesMap Hidem;
    [done|].
  apply Forall_cons in Hidem as [Hn Hidem].
  rewrite fmap_cons. cbn [lintNamesToMap_loop]. rewrite Hn.
  destruct (byName l (TrimSpace n)); [|done]. by apply IH.
Qed.

Lemma lintNamesToMap_trimmed l names :
  Forall (λ n, TrimSpace (TrimSpace n) = TrimSpace n) names →
  lintNamesToMap TrimSpace l (TrimSpace <$> names)
  = lintNamesToMap TrimSpace l names.
Proof.
  intros Hidem. unfold lintNamesToMap. rewrite length_fmap.
  destruct (decide (length names = 0%nat)); [done|].
  by rewrite lintNamesToMap_loop_trimmed.
Qed.

(** The loop of [Filter] reads the criteria through the pattern only. *)
Lemma Filter_loop_NameFilter l opts opts' sE sI nE nI names (acc : linterImpl) :
  NameFilter opts = NameFilter opts' →
  Filter_loop l opts sE sI nE nI names acc
  = Filter_loop l opts' sE sI nE nI names acc.
Proof.
  intros Hre. revert acc. induction names as [|n names IH]; intros acc; [done|].
  cbn [Filter_loop].
  assert (Filter_tests opts sE sI nE nI n (byName l n)
          = Filter_tests opts' sE sI nE nI n (byName l n)) as ->.
  { unfold Filter_tests. by rewrite Hre. }
  destruct (Filter_tests opts' sE sI nE nI n (byName l n)) as [[|]|];
    [|done|done].
  destruct (register acc (byName l n) false) as [acc1 [err|]]; done.
Qed.

(** X13. White space around the listed names does not matter: when trimming
    an entry twice is trimming it once, as for [strings.TrimSpace], [Filter]
    returns the same result, registry or error, for the criteria and for
    the criteria with every entry of the two name lists trimmed
    beforehand. *)
Theorem Filter_trim_insensitive l opts :
  Forall (λ n, TrimSpace (TrimSpace n) = TrimSpace n)
    (ExcludeNames opts ++ IncludeNames opts) →
  Filter TrimSpace l (trimmed_names TrimSpace opts) = Filter TrimSpace l opts.
Proof.
  intros [HE HI]%Forall_app. unfold Filter.
  assert (Empty (trimmed_names TrimSpace opts) = Empty opts) as ->.
  { unfold Empty. simpl. by rewrite !length_fmap. }
  destruct (Empty opts); [done|]. simpl.
  rewrite !lintNamesToMap_trimmed by done.
  destruct (lintNamesToMap TrimSpace l (ExcludeNames opts)) as [?|nE]; [done|].
  destruct (lintNamesToMap TrimSpace l (IncludeNames opts)) as [?|nI]; [done|].
  destruct (_ && _); [done|].
  by apply Filter_loop_NameFilter.
Qed.

(** X14. The provenance criteria show in [Sources()] of the registry
    [Filter] returns: no excluded provenance is listed, and when the include
    list is not empty only provenances of that list are. *)
Theorem Filter_sources l opts l' :
  linter_wf l →
  Filter TrimSpace l opts = FilterNew l' →
  (∀ s, s ∈ ExcludeSources opts → s ∉ Sources l') ∧
  (IncludeSources opts ≠ [] → ∀ s, s ∈ Sources l' → s ∈ IncludeSources opts).
Proof.
  intros Hwf HF.
  destruct (Filter_New_inv l opts l' Hwf HF) as (_ & _ & Hreach & Hsub & Hnames).
  pose proof (reachable_wf l' Hreach) as Hwf'.
  pose proof (reachable_sources_wf l' Hreach) as Hsrc'.
  assert (∀ s, s ∈ Sources l' →
            ∃ lint, byName l (Name lint) = Some lint ∧ Source lint = s ∧
                    passes_tests TrimSpace l opts (Name lint)) as Hkept.
  { intros s (lint & Hl & Hs)%(Sources_registered l' s Hsrc').
    exists lint. split; [|split; [done|]].
    - unfold byName in *. by apply (lookup_weaken _ _ _ _ Hl).
    - apply Hnames, (wf_names _ Hwf'). unfold byName in Hl. by eexists. }
  split.
  - intros s Hex (lint & Hl & <- & Hp)%Hkept.
    destruct Hp as (lint' & Hl' & Hnot & _).
    rewrite Hl in Hl'. injection Hl' as <-. done.
  - intros Hne s (lint & Hl & <- & Hp)%Hkept.
    destruct Hp as (lint' & Hl' & _ & Hin & _).
    rewrite Hl in Hl'. injection Hl' as <-. by apply Hin.
Qed.

(** X15. On a registry that satisfies its invariant [Filter] never reads
    through a nil lint and never fails in [register]: it does not panic, and
    the only errors it returns are the two errors of the criteria. *)
Theorem Filter_no_panic l opts :
  linter_wf l →
  Filter TrimSpace l opts ≠ FilterPanic ∧
  ∀ err, Filter TrimSpace l opts ≠ FilterErr (errRegister err).
Proof.
  intros Hwf. unfold Filter.
  destruct (Empty opts); [done|].
  pose proof (lintNamesToMap_spec TrimSpace l (ExcludeNames opts)) as HsE.
  destruct (lintNamesToMap TrimSpace l (ExcludeNames opts)) as [eE|nE].
  { destruct HsE as (n & -> & _). done. }
  pose proof (lintNamesToMap_spec TrimSpace l (IncludeNames opts)) as HsI.
  destruct (lintNamesToMap TrimSpace l (IncludeNames opts)) as [eI|nI].
  { destruct HsI as (n & -> & _). done. }
  destruct (_ && _); [done|].
  destruct (Filter_loop_spec l opts
              (sourceListToMap (ExcludeSources opts))
              (sourceListToMap (IncludeSources opts))
              nE nI (Names l) newLinter)
    as (acc' & -> & _);
    [done|apply linter_wf_newLinter|apply (wf_NoDup _ Hwf)|done|done|].
  done.
Qed.

End FilterMore.

(** ** Filter resolution on concrete registries, continued *)

Lemma Filter_sub_registry_witness :
  reachable (linter_of [lint_named "r2" "Y"]) ∧
  (∀ name lint,
     byName (linter_of [lint_named "r2" "Y"]) name = Some lint →
     byName linter_r123 name = Some lint) ∧
  Names (linter_of [lint_named "r2" "Y"]) `sublist_of` Names linter_r123.
Proof.
  apply (Filter_sub_registry TrimSpace_ascii linter_r123 opts_r123).
  - apply linter_wf_linter_of.
  - by vm_compute.
Defined.

Lemma Filter_exclude_not_repeatable_witness :
  ∃ n, Filter TrimSpace_ascii (linter_of [lint_named "b" "X"]) opts_exclude_a
         = FilterErr (errUnknownLintName n) ∧
       byName (linter_of [lint_named "b" "X"]) n = None.
Proof.
  apply (Filter_exclude_not_repeatable TrimSpace_ascii linter_ab opts_exclude_a).
  - apply linter_wf_linter_of.
  - discriminate.
  - by vm_compute.
Defined.

Lemma Filter_trim_insensitive_witness :
  Filter TrimSpace_ascii linter_ab (trimmed_names TrimSpace_ascii opts_include_spa)
  = Filter TrimSpace_ascii linter_ab opts_include_spa.
Proof.
  apply (Filter_trim_insensitive TrimSpace_ascii linter_ab opts_include_spa).
  apply Forall_cons. split; [reflexivity|constructor].
Defined.

Lemma Filter_sources_witness :
  (∀ s, s ∈ ExcludeSources opts_exclude_X →
        s ∉ Sources (linter_of [lint_named "a" "Y"])) ∧
  (IncludeSources opts_exclude_X ≠ [] →
   ∀ s, s ∈ Sources (linter_of [lint_named "a" "Y"]) →
        s ∈ IncludeSources opts_exclude_X).
Proof.
  apply (Filter_sources TrimSpace_ascii linter_ab opts_exclude_X).
  - apply linter_wf_linter_of.
  - by vm_compute.
Defined.

Lemma Filter_no_panic_witness :
  Filter TrimSpace_ascii linter_ab opts_pattern_unknown ≠ FilterPanic ∧
  ∀ err, Filter TrimSpace_ascii linter_ab opts_pattern_unknown
         ≠ FilterErr (errRegister err).
Proof.
  apply (Filter_no_panic TrimSpace_ascii linter_ab opts_pattern_unknown).
  apply linter_wf_linter_of.
Defined.

(** ** Further properties of the execution engine *)

Section EngineMore.

Variable Certificate : Type.
Variable Execute : Lint → Certificate → option LintResult.

Implicit Types (l linter : linterImpl) (cert : Certificate) (rs : ResultSet).
Implicit Types (name lintName : string).

Lemma flags_consistent_set_LintEndTimestamp rs finish :
  flags_consistent rs → flags_consistent (set_LintEndTimestamp rs finish).
Proof. intros H. exact H. Qed.

(** The loop of [Lint] over registered names that have no entry yet. *)
Lemma Lint_loop_spec l cert (names : list string) rs :
  NoDup names →
  (∀ name, name ∈ names → is_Some (byName l name)) →
  (∀ name, name ∈ names → entries rs !! name = None) →
  flags_consistent rs →
  ∃ rs',
    Lint_loop Certificate Execute l cert names rs = Some rs' ∧
    flags_consistent rs' ∧
    (∀ name, name ∈ names →
       entries rs' !! name = (λ lint, Execute lint cert) <$> byName l name) ∧
    (∀ name, name ∉ names → entries rs' !! name = entries rs !! name) ∧
    Version rs' = Version rs ∧
    LintStartTimestamp rs' = LintStartTimestamp rs ∧
    LintEndTimestamp rs' = LintEndTimestamp rs.
Proof.
  revert rs. induction names as [|n names IH]; intros rs Hnd Hreg Hfresh Hc.
  - exists rs. split; [done|]. split; [done|]. split; [|done].
    by intros name ?%elem_of_nil.
  - apply NoDup_cons in Hnd as [Hn Hnd].
    destruct (Hreg n) as [lint Hlint]; [left|].
    cbn [Lint_loop]. rewrite Hlint.
    destruct (AddResult_fields rs n (Execute lint cert)) as (Hv & Hs & He).
    assert (entries (AddResult rs n (Execute lint cert)) !! n
            = Some (Execute lint cert)) as Hstored
      by (by rewrite entries_AddResult, lookup_insert_eq).
    assert (∀ name, name ≠ n →
              entries (AddResult rs n (Execute lint cert)) !! name
              = entries rs !! name) as Hother
      by (intros name Hne; by rewrite entries_AddResult, lookup_insert_ne).
    destruct (IH (AddResult rs n (Execute lint cert)))
      as (rs' & Hloop & Hc' & Hin & Hout & Hv' & Hs' & He'); [done| | | |].
    + intros name ?. apply Hreg. by right.
    + intros name Hname. rewrite Hother; [|by intros ->].
      apply Hfresh. by right.
    + apply flags_consistent_AddResult_fresh; [done|]. apply Hfresh. left.
    + exists rs'. split; [done|]. split; [done|]. split; [|split].
      * intros name [->|Hname]%elem_of_cons; [|by apply Hin].
        by rewrite Hout, Hstored, Hlint.
      * intros name [Hne Hname]%not_elem_of_cons.
        by rewrite Hout, Hother.
      * by rewrite Hv', Hs', He'.
Qed.

(** The entries of the result set of [Lint]. *)
Lemma Lint_entries l cert (start finish : Z) :
  linter_wf l →
  ∃ rs,
    linterImpl_Lint Certificate Execute l cert start finish = Some rs ∧
    ∀ name,
      entries rs !! name = (λ lint, Execute lint cert) <$> byName l name.
Proof.
  intros Hwf. unfold linterImpl_Lint.
  destruct (Lint_loop_spec l cert (Names l) (newResultSet start))
    as (rs & -> & _ & Hin & Hout & _).
  - apply (wf_NoDup _ Hwf).
  - intros name Hname. by apply (wf_names _ Hwf).
  - done.
  - apply flags_consistent_newResultSet.
  - exists (set_LintEndTimestamp rs finish). split; [done|].
    intros name. change (entries (set_LintEndTimestamp rs finish)) with (entries rs).
    destruct (decide (name ∈ Names l)) as [Hname|Hname]; [by apply Hin|].
    rewrite Hout by done.
    destruct (byName l name) as [lint|] eqn:Hby; [|done].
    destruct Hname. apply (wf_names _ Hwf). unfold byName in Hby. by eexists.
Qed.

(** X16. On a registry that satisfies its invariant, [Lint] returns without
    a panic a result set with one entry for each registered rule and no
    other, the verdict of that rule on the certificate; its four presence
    flags are the OR over its entries of "status equals that severity"; it
    carries the version of the result set and the two readings of the
    clock. *)
Theorem Lint_results l cert (start finish : Z) :
  linter_wf l →
  ∃ rs,
    linterImpl_Lint Certificate Execute l cert start finish = Some rs ∧
    (∀ name,
       entries rs !! name = (λ lint, Execute lint cert) <$> byName l name) ∧
    flags_consistent rs ∧
    Version rs = resultSetVersion ∧
    LintStartTimestamp rs = start ∧
    LintEndTimestamp rs = finish.
Proof.
  intros Hwf. unfold linterImpl_Lint.
  destruct (Lint_loop_spec l cert (Names l) (newResultSet start))
    as (rs & -> & Hc & Hin & Hout & Hv & Hs & _).
  - apply (wf_NoDup _ Hwf).
  - intros name Hname. by apply (wf_names _ Hwf).
  - done.
  - apply flags_consistent_newResultSet.
  - exists (set_LintEndTimestamp rs finish). split; [done|].
    split; [|split; [exact Hc|split; [exact Hv|split; [exact Hs|done]]]].
    intros name. change (entries (set_LintEndTimestamp rs finish)) with (entries rs).
    destruct (decide (name ∈ Names l)) as [Hname|Hname]; [by apply Hin|].
    rewrite Hout by done.
    destruct (byName l name) as [lint|] eqn:Hby; [|done].
    destruct Hname. apply (wf_names _ Hwf). unfold byName in Hby. by eexists.
Qed.

(** X17. [LintByName] reports what [Lint] reports for that rule: its map of
    results is the map of [Lint] cut down to the one name, empty when the
    name is not registered, and its presence flags are the OR over that
    map. *)
Theorem LintByName_restricts_Lint l lintName cert (start finish : Z) rs :
  linter_wf l →
  linterImpl_Lint Certificate Execute l cert start finish = Some rs →
  (∀ name,
     entries (LintByName Certificate Execute l lintName cert start finish) !! name
     = if decide (name = lintName) then entries rs !! name else None) ∧
  flags_consistent (LintByName Certificate Execute l lintName cert start finish).
Proof.
  intros Hwf Hrs.
  destruct (Lint_entries l cert start finish Hwf) as (rs0 & Hrs0 & Hentries).
  rewrite Hrs in Hrs0. injection Hrs0 as <-.
  unfold LintByName. split.
  - intros name.
    change (entries (set_LintEndTimestamp ?r finish)) with (entries r).
    rewrite Hentries.
    destruct (byName l lintName) as [lint|] eqn:Hby.
    + rewrite entries_AddResult. destruct (decide (name = lintName)) as [->|Hne].
      * by rewrite lookup_insert_eq, Hby.
      * by rewrite lookup_insert_ne.
    + destruct (decide (name = lintName)) as [->|Hne]; [by rewrite Hby|done].
  - apply flags_consistent_set_LintEndTimestamp.
    destruct (byName l lintName) as [lint|].
    + apply flags_consistent_AddResult_fresh; [|done].
      apply flags_consistent_newResultSet.
    + apply flags_consistent_newResultSet.
Qed.

Section AfterFilter.

Variable TrimSpace : string → string.

(** X18. Filtering does not change a verdict: the result set of [Lint] on
    the registry [Filter] returns has, for each name the filter kept, the
    entry that [Lint] on the source registry has, and no other entry. *)
Theorem Lint_after_Filter l (opts : FilterOptions) l' cert (start finish : Z) :
  linter_wf l →
  Filter TrimSpace l opts = FilterNew l' →
  ∃ rs rs',
    linterImpl_Lint Certificate Execute l cert start finish = Some rs ∧
    linterImpl_Lint Certificate Execute l' cert start finish = Some rs' ∧
    ∀ name,
      entries rs' !! name
      = if decide (name ∈ Names l') then entries rs !! name else None.
Proof.
  intros Hwf HF.
  destruct (Filter_New_inv TrimSpace l opts l' Hwf HF)
    as (_ & _ & Hreach & Hsub & _).
  pose proof (reachable_wf l' Hreach) as Hwf'.
  destruct (Lint_entries l cert start finish Hwf) as (rs & Hrs & Hentries).
  destruct (Lint_entries l' cert start finish Hwf') as (rs' & Hrs' & Hentries').
  exists rs, rs'. split; [done|]. split; [done|].
  intros name. rewrite Hentries', Hentries.
  destruct (decide (name ∈ Names l')) as [Hin|Hnot].
  - apply (wf_names _ Hwf') in Hin as [lint Hl].
    unfold byName. rewrite Hl. by rewrite (lookup_weaken _ _ _ _ Hl Hsub).
  - destruct (byName l' name) as [lint|] eqn:Hby; [|done].
    destruct Hnot. apply (wf_names _ Hwf'). unfold byName in Hby. by eexists.
Qed.

End AfterFilter.

Variable pem_Decode : list Byte.byte → option (string * list Byte.byte).
Variable base64_DecodeString : list Byte.byte → option (list Byte.byte).
Variable ParseCertificate : list Byte.byte → option Certificate.
Variable json_Marshal :
  option (gmap string (option LintResult)) → option (list Byte.byte).
Variable json_Indent : list Byte.byte → option (list Byte.byte).

(** X19. The minimum status does not reach the output of [doLint]: the
    results are encoded before [Above] narrows them, so whenever [doLint]
    ends without a panic it ends exactly as it does with no minimum status,
    with the same bytes written or the same fatal log. *)
Theorem doLint_minStatus_ignored (fileBytes : option (list Byte.byte))
    (inform : string) linter (minStatus : option LintStatus)
    (prettyprint : bool) (start finish : Z) :
  doLint Certificate Execute pem_Decode base64_DecodeString ParseCertificate
    json_Marshal json_Indent fileBytes inform linter minStatus prettyprint
    start finish ≠ doLint_Panic →
  doLint Certificate Execute pem_Decode base64_DecodeString ParseCertificate
    json_Marshal json_Indent fileBytes inform linter minStatus prettyprint
    start finish
  = doLint Certificate Execute pem_Decode base64_DecodeString ParseCertificate
      json_Marshal json_Indent fileBytes inform linter None prettyprint
      start finish.
Proof.
  unfold doLint.
  destruct fileBytes as [fileBytes|]; [|done].
  destruct (doLint_asn1Data _ _ _ _) as [why|asn1Data]; [done|].
  destruct (ParseCertificate asn1Data) as [c|]; [|done].
  destruct (linterImpl_Lint _ _ _ _ _ _) as [zlintResult|]; [|done].
  destruct (json_Marshal _) as [jsonBytes|]; [|done].
  destruct minStatus as [status|]; [|done].
  destruct (Above zlintResult status); done.
Qed.

(** X20. [doLint] panics only through a nil lint result: on a registry that
    satisfies its invariant and with rules that all return a non-nil
    result, it ends with a fatal log or with bytes written, whatever the
    minimum status. *)
Theorem doLint_no_panic (fileBytes : option (list Byte.byte))
    (inform : string) linter (minStatus : option LintStatus)
    (prettyprint : bool) (start finish : Z) :
  linter_wf linter →
  (∀ lint cert, is_Some (Execute lint cert)) →
  doLint Certificate Execute pem_Decode base64_DecodeString ParseCertificate
    json_Marshal json_Indent fileBytes inform linter minStatus prettyprint
    start finish ≠ doLint_Panic.
Proof.
  intros Hwf Hnonnil. unfold doLint.
  destruct fileBytes as [fileBytes|]; [|done].
  destruct (doLint_asn1Data _ _ _ _) as [why|asn1Data]; [done|].
  destruct (ParseCertificate asn1Data) as [c|]; [|done].
  destruct (Lint_entries linter c start finish Hwf)
    as (rs & -> & Hentries).
  destruct (json_Marshal _) as [jsonBytes|]; [|done].
  assert (results_non_nil rs) as Hnn.
  { intros name res Hres. rewrite Hentries in Hres.
    destruct (byName linter name) as [lint|]; [|done].
    injection Hres as <-. apply Hnonnil. }
  destruct minStatus as [status|].
  - rewrite Above_filter by done.
    destruct prettyprint; [|done]. by destruct (json_Indent jsonBytes).
  - destruct prettyprint; [|done]. by destruct (json_Indent jsonBytes).
Qed.

End EngineMore.

(** ** The execution engine on concrete registries *)

Lemma Lint_results_witness :
  ∃ rs,
    linterImpl_Lint unit Execute_by_name linter_ab () 0 1 = Some rs ∧
    (∀ name,
       entries rs !! name
       = (λ lint, Execute_by_name lint ()) <$> byName linter_ab name) ∧
    flags_consistent rs ∧
    Version rs = resultSetVersion ∧
    LintStartTimestamp rs = 0 ∧
    LintEndTimestamp rs = 1.
Proof.
  apply (Lint_results unit Execute_by_name linter_ab () 0 1).
  apply linter_wf_linter_of.
Defined.

Example Lint_linter_ab :
  linterImpl_Lint unit Execute_by_name linter_ab () 0 1
  = Some (mkResultSet 4 false false true false
            (Some {["a" := result Error; "b" := result Pass]}) 0 1).
Proof. by vm_compute. Qed.

Lemma LintByName_restricts_Lint_witness :
  (∀ name,
     entries (LintByName unit Execute_by_name linter_ab "a" () 0 1) !! name
     = if decide (name = "a")
       then entries (mkResultSet 4 false false true false
                       (Some {["a" := result Error; "b" := result Pass]}) 0 1)
              !! name
       else None) ∧
  flags_consistent (LintByName unit Execute_by_name linter_ab "a" () 0 1).
Proof.
  apply (LintByName_restricts_Lint unit Execute_by_name linter_ab "a" () 0 1).
  - apply linter_wf_linter_of.
  - by vm_compute.
Defined.

Lemma Lint_after_Filter_witness :
  ∃ rs rs',
    linterImpl_Lint unit Execute_by_name linter_r123 () 0 1 = Some rs ∧
    linterImpl_Lint unit Execute_by_name (linter_of [lint_named "r2" "Y"]) () 0 1
      = Some rs' ∧
    ∀ name,
      entries rs' !! name
      = if decide (name ∈ Names (linter_of [lint_named "r2" "Y"]))
        then entries rs !! name else None.
Proof.
  apply (Lint_after_Filter unit Execute_by_name TrimSpace_ascii
           linter_r123 opts_r123).
  - apply linter_wf_linter_of.
  - by vm_compute.
Defined.

Lemma doLint_minStatus_ignored_witness :
  doLint_der Execute_by_name linter_ab (Some Warn)
  = doLint_der Execute_by_name linter_ab None.
Proof.
  apply (doLint_minStatus_ignored unit Execute_by_name).
  vm_compute. discriminate.
Defined.

(** Both rules of the registry are in the output although only one verdict
    is above [Warn]; with a rule that returns a nil result, the run panics
    as soon as a minimum status is given. *)
Example doLint_der_examples :
  doLint_der Execute_by_name linter_ab (Some Warn)
    = doLint_Stdout [Byte.x2e; Byte.x2e; Byte.x0a] ∧
  doLint_der Execute_nil linter_ab None
    = doLint_Stdout [Byte.x2e; Byte.x2e; Byte.x0a] ∧
  doLint_der Execute_nil linter_ab (Some Warn) = doLint_Panic.
Proof. repeat split; by vm_compute. Qed.

Lemma doLint_no_panic_witness :
  doLint_der Execute_by_name linter_ab (Some Warn) ≠ doLint_Panic.
Proof.
  apply (doLint_no_panic unit Execute_by_name).
  - apply linter_wf_linter_of.
  - intros lint cert. unfold Execute_by_name.
    destruct (decide (Name lint = "a")); by eexists.
Defined.

(** ** Filter resolution for criteria of one kind *)

Section FilterLists.

Variable TrimSpace : string → string.

Implicit Types (l : linterImpl) (opts : FilterOptions) (name : string).

(** X21. With an include list as the only criterion, the registry [Filter]
    returns has exactly the listed names: its [Names()] is the sorted list,
    without repetition, of the trimmed entries of the list. *)
Theorem Filter_include_only l opts l' :
  linter_wf l →
  NameFilter opts = None →
  ExcludeNames opts = [] →
  IncludeSources opts = [] →
  ExcludeSources opts = [] →
  Filter TrimSpace l opts = FilterNew l' →
  Names l' = sort_Strings (remove_dups (TrimSpace <$> IncludeNames opts)).
Proof.
  intros Hwf Hre HE HIS HES HF.
  destruct (Filter_New_inv TrimSpace l opts l' Hwf HF)
    as (Hnonempty & (_ & HkI & _) & Hreach & _ & Hnames).
  pose proof (reachable_wf l' Hreach) as Hwf'.
  assert (IncludeNames opts ≠ []) as HI.
  { intros HI. apply Hnonempty. done. }
  apply sort_Strings_unique; [apply (wf_Sorted _ Hwf')|].
  apply NoDup_Permutation;
    [apply (wf_NoDup _ Hwf')|apply NoDup_remove_dups|].
  intros name. rewrite elem_of_remove_dups, Hnames. split.
  - intros [_ (lint & _ & _ & _ & _ & _ & Hin)]. by apply Hin.
  - intros Hin.
    assert (is_Some (byName l name)) as [lint Hlint].
    { apply list_elem_of_fmap in Hin as (n & -> & Hn).
      unfold names_known in HkI. rewrite Forall_forall in HkI. by apply HkI. }
    split.
    + apply (wf_names _ Hwf). unfold byName in Hlint. by eexists.
    + exists lint. rewrite HE, HIS, HES, Hre. split; [done|].
      split; [by intros ?%elem_of_nil|]. split; [done|]. split; [done|].
      split; [by intros ?%elem_of_nil|done].
Qed.

(** X22. With a pattern as the only criterion, the registry [Filter] returns
    has the names of the source that match the pattern, in the order of the
    source. *)
Theorem Filter_pattern_only l opts l' (re : Regexp) :
  linter_wf l →
  NameFilter opts = Some re →
  IncludeSources opts = [] →
  ExcludeSources opts = [] →
  Filter TrimSpace l opts = FilterNew l' →
  Names l' = filter (λ name, MatchString re name = true) (Names l).
Proof.
  intros Hwf Hre HIS HES HF.
  destruct (Filter_New_inv TrimSpace l opts l' Hwf HF)
    as (_ & (_ & _ & Hconf) & Hreach & _ & Hnames).
  pose proof (reachable_wf l' Hreach) as Hwf'.
  assert (ExcludeNames opts = [] ∧ IncludeNames opts = []) as [HE HI].
  { split.
    - destruct (ExcludeNames opts) as [|e es] eqn:HE; [done|].
      destruct Hconf. split; [rewrite Hre; by eexists|]. left. by rewrite HE.
    - destruct (IncludeNames opts) as [|i0 is0] eqn:HI; [done|].
      destruct Hconf. split; [rewrite Hre; by eexists|]. right. by rewrite HI. }
  apply (Sorted_unique String.le); [apply (wf_Sorted _ Hwf')| |].
  - apply StronglySorted_Sorted.
    apply (StronglySorted_sublist _ _ (Names l)); [apply sublist_filter|].
    apply (Sorted_StronglySorted String.le), (wf_Sorted _ Hwf).
  - apply NoDup_Permutation;
      [apply (wf_NoDup _ Hwf')|apply NoDup_filter, (wf_NoDup _ Hwf)|].
    intros name. rewrite list_elem_of_filter, Hnames. split.
    + intros [Hin (lint & _ & _ & _ & Hmatch & _)]. split; [|done].
      by apply Hmatch.
    + intros [Hmatch Hin]. split; [done|].
      apply (wf_names _ Hwf) in Hin as [lint Hlint]. exists lint.
      rewrite HE, HI, HIS, HES, Hre. split; [done|].
      split; [by intros ?%elem_of_nil|]. split; [done|].
      split; [by intros re' [= <-]|].
      split; [by intros ?%elem_of_nil|done].
Qed.

End FilterLists.

Lemma Filter_include_only_witness :
  Names (linter_of [lint_named "b" "X"])
  = sort_Strings (remove_dups (TrimSpace_ascii <$> IncludeNames opts_include_b_b)).
Proof.
  apply (Filter_include_only TrimSpace_ascii linter_ab opts_include_b_b);
    [apply linter_wf_linter_of|reflexivity|reflexivity|reflexivity
    |reflexivity|by vm_compute].
Defined.

Lemma Filter_pattern_only_witness :
  Names (linter_of [lint_named "a" "Y"])
  = filter (λ name, MatchString match_a name = true) (Names linter_ab).
Proof.
  apply (Filter_pattern_only TrimSpace_ascii linter_ab opts_pattern_a);
    [apply linter_wf_linter_of|reflexivity|reflexivity|reflexivity
    |by vm_compute].
Defined.

(** ** Bulk registration *)

Lemma register_all_byName_from linter (ls : list Lint) initialize :
  Forall (valid_lint initialize) ls →
  NoDup (Name <$> ls) →
  (∀ name, name ∈ Name <$> ls → byName linter name = None) →
  ∃ linter',
    register_all linter ls initialize = (linter', None) ∧
    ∀ name lint,
      byName linter' name = Some lint ↔
      byName linter name = Some lint ∨ (lint ∈ ls ∧ Name lint = name).
Proof.
  revert linter.
  induction ls as [|lint0 ls IH]; intros linter Hvalid Hnd Hfree.
  - exists linter. split; [done|]. intros name lint. split; [by left|].
    intros [?|[?%elem_of_nil _]]; done.
  - apply Forall_cons in Hvalid as [Hv Hvalid].
    rewrite fmap_cons in Hnd, Hfree. apply NoDup_cons in Hnd as [Hnotin Hnd].
    assert (byName linter (Name lint0) = None) as Hfree0 by (apply Hfree; left).
    cbn [register_all]. rewrite (register_valid linter lint0 initialize Hv Hfree0).
    destruct (IH (registered linter lint0)) as (linter' & Hr & Hby);
      [done|done| |].
    + intros name Hin. rewrite byName_registered_ne.
      * apply Hfree. by right.
      * intros ->. done.
    + exists linter'. split; [done|]. intros name lint. rewrite Hby.
      rewrite elem_of_cons.
      destruct (decide (name = Name lint0)) as [->|Hne].
      * rewrite byName_registered_eq, Hfree0. split.
        -- intros [[= ->]|[? ?]]; right; [by split; [left|]|].
           by split; [right|].
        -- intros [[=]|[[->|?] Hn]]; [by left|right; done].
      * rewrite byName_registered_ne by done. split.
        -- intros [?|[? ?]]; [by left|right]. by split; [right|].
        -- intros [?|[[->|?] Hn]]; [by left|done|right; done].
Qed.

(** X23. After valid descriptors with pairwise distinct names have been
    registered into a new registry, [byName] finds under each name the
    descriptor that carries it, and finds nothing under any other name,
    whatever the order of registration was. *)
Theorem register_all_byName (ls : list Lint) initialize :
  Forall (valid_lint initialize) ls →
  NoDup (Name <$> ls) →
  ∃ linter,
    register_all newLinter ls initialize = (linter, None) ∧
    ∀ name lint,
      byName linter name = Some lint ↔ lint ∈ ls ∧ Name lint = name.
Proof.
  intros Hvalid Hnd.
  destruct (register_all_byName_from newLinter ls initialize)
    as (linter & Hr & Hby); [done|done|done|].
  exists linter. split; [done|]. intros name lint. rewrite Hby.
  unfold byName. simpl. rewrite lookup_empty. split; [|by right].
  by intros [?|?].
Qed.

Lemma register_all_byName_witness :
  ∃ linter,
    register_all newLinter [lint_named "b" "X"; lint_named "a" "Y"] true
      = (linter, None) ∧
    ∀ name lint,
      byName linter name = Some lint ↔
      lint ∈ [lint_named "b" "X"; lint_named "a" "Y"] ∧ Name lint = name.
Proof.
  apply (register_all_byName [lint_named "b" "X"; lint_named "a" "Y"] true).
  - repeat first [apply Forall_nil_2 | apply Forall_cons_2];
      by apply valid_lint_named.
  - apply (bool_decide_unpack _). vm_compute. exact I.
Defined.
